(** * shooter-game: the geometry kernel, the entity model and the peer merge

    A shallow embedding of the Go sources

      - package [game]   (segments, [Rect], [Intersection], [Object.Points]),
      - package [player] ([Player], [Bullet], [HitBox], [Update], [Shoot]),
      - package [main]   ([castRays], [checkBulletCollisions], [Game.Update],
                          [listenForUpdates]),

    followed by the properties of the specification that concern them.

    Conventions.
      - [float64] is Rocq's primitive binary64 type: the arithmetic and the
        comparisons are the IEEE 754 ones Go uses, NaN included.
      - [int] is [Z]; the subtraction on health wraps at 64 bits.
      - [map[string]*Player] is a [gmap string Player.t]; a write through the
        pointer is an insert at the key.  Go ranges over a map in an order
        of its own choosing, so every loop over the map takes the order as
        an argument.
      - A run-time panic (index out of range) is [None].
      - What the Go standard library and the ebiten engine provide (cos, sin,
        atan2, sort.Slice, the sprite, keyboard, pointer, clock, random
        source) is an interface, [Extern], or a record of readings,
        [Input]. *)

From Stdlib Require Import ZArith Floats Lia.
From stdpp Require Import gmap strings list.

Set Warnings "-inexact-float".

(** ** float64 *)

Abbreviation float64 := PrimFloat.float.

Module F64.

(** Go's [x > y] and [x != y] on float64. *)
Definition gtb (x y : float64) : bool := PrimFloat.ltb y x.
Definition neb (x y : float64) : bool := negb (PrimFloat.eqb x y).

(** [float64(n)] for an [int] n (of magnitude below 2^63). *)
Definition of_int (n : Z) : float64 :=
  if (n <? 0)%Z then PrimFloat.opp (PrimFloat.of_uint63 (Uint63.of_Z (- n)))
  else PrimFloat.of_uint63 (Uint63.of_Z n).

(** The closed range [[0,1]]. *)
Definition in01 (t : float64) : bool :=
  PrimFloat.leb 0 t && PrimFloat.leb t 1.

End F64.

Infix ">?" := F64.gtb (at level 70, no associativity) : float_scope.
Infix "!=?" := F64.neb (at level 70, no associativity) : float_scope.

(** ** Package math (Go standard library, portable implementations) *)

Module math.
Local Open Scope float_scope.

Definition Inf (sign : Z) : float64 :=
  if (0 <=? sign)%Z then infinity else neg_infinity.

Definition IsInf (f : float64) (sign : Z) : bool :=
  ((0 <=? sign)%Z && (f =? infinity)) || ((sign <=? 0)%Z && (f =? neg_infinity)).

Definition IsNaN (f : float64) : bool := f !=? f.

Definition Signbit (f : float64) : bool := get_sign f.

Definition Max (x y : float64) : float64 :=
  if IsInf x 1 || IsInf y 1 then Inf 1
  else if IsNaN x || IsNaN y then nan
  else if (x =? 0) && (x =? y) then (if Signbit x then y else x)
  else if x >? y then x else y.

Definition Min (x y : float64) : float64 :=
  if IsInf x (-1) || IsInf y (-1) then Inf (-1)
  else if IsNaN x || IsNaN y then nan
  else if (x =? 0) && (x =? y) then (if Signbit x then x else y)
  else if x <? y then x else y.

Definition Hypot (p q : float64) : float64 :=
  let p := abs p in
  let q := abs q in
  if IsInf p 1 || IsInf q 1 then Inf 1
  else if IsNaN p || IsNaN q then nan
  else
    let '(p, q) := if p <? q then (q, p) else (p, q) in
    if p =? 0 then 0
    else
      let q := q / p in
      p * sqrt (1 + q * q).

End math.

(** The bounds of a loaded image, as [image.Rectangle]'s [Dx()] and [Dy()]. *)
Record Bounds := mkBounds { Dx : Z; Dy : Z }.

(** What stays an interface: the transcendental functions, the sort, and
    the sprite asset loaded at start-up. *)
Class Extern := {
  math_Cos : float64 -> float64;
  math_Sin : float64 -> float64;
  math_Atan2 : float64 -> float64 -> float64;
  (** [sort.Slice(s, less)], with [less] read on the elements. *)
  sort_Slice : forall A : Type, list A -> (A -> A -> bool) -> list A;
  (** [utils.MustLoadImage("assets/survivor-idle_rifle_0.png")]. *)
  PlayerSprite : Bounds;
}.

(** ** Package game *)

Module game.
Local Open Scope float_scope.

Record Line := mkLine { X1 : float64; Y1 : float64; X2 : float64; Y2 : float64 }.

Definition NewRay `{Extern} (x y length angle : float64) : Line :=
  {| X1 := x;
     Y1 := y;
     X2 := x + length * math_Cos angle;
     Y2 := y + length * math_Sin angle |}.

Definition Angle `{Extern} (l : Line) : float64 :=
  math_Atan2 (Y2 l - Y1 l) (X2 l - X1 l).

Definition Rect (x y w h : float64) : list Line :=
  [ mkLine x y x (y + h);
    mkLine x (y + h) (x + w) (y + h);
    mkLine (x + w) (y + h) (x + w) y;
    mkLine (x + w) y x y ].

Definition Intersection (l1 l2 : Line) : float64 * float64 * bool :=
  let denom := (X1 l1 - X2 l1) * (Y1 l2 - Y2 l2) - (Y1 l1 - Y2 l1) * (X1 l2 - X2 l2) in
  let tNum := (X1 l1 - X1 l2) * (Y1 l2 - Y2 l2) - (Y1 l1 - Y1 l2) * (X1 l2 - X2 l2) in
  let uNum := - ((X1 l1 - X2 l1) * (Y1 l1 - Y1 l2) - (Y1 l1 - Y2 l1) * (X1 l1 - X1 l2)) in
  if denom =? 0 then (0, 0, false)
  else
    let t := tNum / denom in
    if (t >? 1) || (t <? 0) then (0, 0, false)
    else
      let u := uNum / denom in
      if (u >? 1) || (u <? 0) then (0, 0, false)
      else
        let x := X1 l1 + t * (X2 l1 - X1 l1) in
        let y := Y1 l1 + t * (Y2 l1 - Y1 l1) in
        (x, y, true).

Record Object := mkObject { Walls : list Line }.

(** [Points] indexes [o.Walls[0]] and [points[len(points)-1]] without a
    length check: on an object with no wall it panics. *)
Definition Points (o : Object) : option (list (float64 * float64)) :=
  let points := (fun wall => (X2 wall, Y2 wall)) <$> Walls o in
  w0 ← Walls o !! 0%nat;
  let p := (X1 w0, Y1 w0) in
  last ← points !! (length points - 1)%nat;
  if (p.1 !=? last.1) && (p.2 !=? last.2)
  then Some (points ++ [(X1 w0, Y1 w0)])
  else Some points.

End game.


(** ** Go's [int] and [time] *)

Module Int.
Local Open Scope Z_scope.

Definition min_int : Z := - 2 ^ 63.
Definition max_int : Z := 2 ^ 63 - 1.

(** The value an [int] holds after an arithmetic result [z]. *)
Definition wrap (z : Z) : Z := (z + 2 ^ 63) mod 2 ^ 64 - 2 ^ 63.

Definition sub (a b : Z) : Z := wrap (a - b).

(** The values of the type. *)
Definition is_int (z : Z) : Prop := min_int <= z <= max_int.

End Int.

Module time.
Local Open Scope Z_scope.

Definition Millisecond : Z := 1000000.

(** [time.Since(t)] read at the instant [now]: the elapsed nanoseconds,
    saturated to the range of [time.Duration]. *)
Definition Since (now t : Z) : Z := Z.max Int.min_int (Z.min Int.max_int (now - t)).

End time.

(** ** Package player *)

(** What one call of [Player.Update] reads from the engine, the clock and
    the random source. *)
Record Input := mkInput {
  KeyShiftLeft : bool;
  KeyW : bool;
  KeyS : bool;
  KeyA : bool;
  KeyD : bool;
  CursorPosition : Z * Z;
  MouseButtonLeft : bool;
  (** the instant [time.Since] reads, and the one [time.Now()] returns *)
  SinceNow : Z;
  ShotNow : Z;
  (** [rand.Float64()] *)
  RandFloat64 : float64;
}.

Module Bullet.
Local Open Scope float_scope.

Record t := mk {
  OwnerID : string;
  X : float64;
  Y : float64;
  EndX : float64;
  EndY : float64;
  Direction : float64;
  Velocity : float64;
}.

Definition Update `{Extern} (b : t) : t :=
  let dx := math_Cos (Direction b) * Velocity b in
  let dy := math_Sin (Direction b) * Velocity b in
  {| OwnerID := OwnerID b;
     X := X b + dx;
     Y := Y b + dy;
     EndX := EndX b + dx;
     EndY := EndY b + dy;
     Direction := Direction b;
     Velocity := Velocity b |}.

Definition OutOfBounds (b : t) (width height : float64) : bool :=
  (X b <? 0) || (X b >? width) || (Y b <? 0) || (Y b >? height).

Definition Line (b : t) : game.Line :=
  {| game.X1 := X b; game.Y1 := Y b; game.X2 := EndX b; game.Y2 := EndY b |}.

End Bullet.

Module Player.
Local Open Scope float_scope.

Definition MaxHealth : Z := 100.
Definition PlayerSpeed : float64 := 1.0.
Definition PlayerSprintSpeedFactor : float64 := 1.7.
Definition BulletSpeed : float64 := 80.0.
Definition ShootCooldown : Z := (200 * time.Millisecond)%Z.

Record t := mk {
  ID : string;
  X : float64;
  Y : float64;
  Angle : float64;
  Health : Z;
  Bullets : list Bullet.t;
  lastShot : Z;
  sprite : Bounds;
}.

Definition setHealth (h : Z) (p : t) : t :=
  mk (ID p) (X p) (Y p) (Angle p) h (Bullets p) (lastShot p) (sprite p).
Definition setBullets (bs : list Bullet.t) (p : t) : t :=
  mk (ID p) (X p) (Y p) (Angle p) (Health p) bs (lastShot p) (sprite p).
Definition setLastShot (ts : Z) (p : t) : t :=
  mk (ID p) (X p) (Y p) (Angle p) (Health p) (Bullets p) ts (sprite p).
Definition setPose (x y angle : float64) (p : t) : t :=
  mk (ID p) x y angle (Health p) (Bullets p) (lastShot p) (sprite p).

Definition SpriteBounds (p : t) : Bounds := sprite p.

Definition HitBox (p : t) : game.Object :=
  let dx := F64.of_int (Dx (SpriteBounds p)) * 0.25 in
  let dy := F64.of_int (Dy (SpriteBounds p)) * 0.25 in
  game.mkObject (game.Rect (X p - dx / 2) (Y p - dy / 2) dx dy).

Definition NewPlayer `{Extern} (id : string) (x y : float64) : t :=
  {| ID := id;
     X := x;
     Y := y;
     Angle := 0;
     Health := MaxHealth;
     Bullets := [];
     lastShot := 0;
     sprite := PlayerSprite |}.

Definition Shoot `{Extern} (inp : Input) (p : t) : t :=
  let angleRecoil := (RandFloat64 inp - 0.5) / 10 in
  let bullet :=
    {| Bullet.OwnerID := ID p;
       Bullet.X := X p;
       Bullet.Y := Y p;
       Bullet.EndX := X p + math_Cos (Angle p + angleRecoil) * BulletSpeed;
       Bullet.EndY := Y p + math_Sin (Angle p + angleRecoil) * BulletSpeed;
       Bullet.Direction := Angle p + angleRecoil;
       Bullet.Velocity := BulletSpeed |} in
  setBullets (Bullets p ++ [bullet]) p.

(** The loop [for i := len(p.Bullets) - 1; i >= 0; i--] of [Update]: the
    bullets are visited from the last index down, each is advanced, and one
    that left the field is cut out of the slice.  Cutting index [i] moves
    only the indices above [i], which were visited already, so the visit
    of the tail comes first and the head is decided last. *)
Fixpoint updateBullets `{Extern} (bullets : list Bullet.t) : list Bullet.t :=
  match bullets with
  | [] => []
  | b :: rest =>
      let rest := updateBullets rest in
      let b := Bullet.Update b in
      if Bullet.OutOfBounds b 1600 900 then rest else b :: rest
  end.

Definition Update `{Extern} (inp : Input) (hitsObstacle : bool) (p : t) : t :=
  if (Health p <=? 0)%Z then p
  else
    let moveX := 0.0 in
    let moveY := 0.0 in
    let movementSpeed := PlayerSpeed in
    let movementSpeed :=
      if KeyShiftLeft inp then movementSpeed * PlayerSprintSpeedFactor else movementSpeed in
    let moveY := if KeyW inp then moveY - movementSpeed else moveY in
    let moveY := if KeyS inp then moveY + movementSpeed else moveY in
    let moveX := if KeyA inp then moveX - movementSpeed else moveX in
    let moveX := if KeyD inp then moveX + movementSpeed else moveX in
    let x := X p + moveX in
    let x := if hitsObstacle then x - moveX else x in
    let y := Y p + moveY in
    let y := if hitsObstacle then y - moveY else y in
    let '(mx, my) := CursorPosition inp in
    let dx := F64.of_int mx - x in
    let dy := F64.of_int my - y in
    let p := setPose x y (math_Atan2 dy dx) p in
    let p :=
      if MouseButtonLeft inp && (ShootCooldown <? time.Since (SinceNow inp) (lastShot p))%Z
      then setLastShot (ShotNow inp) (Shoot inp p)
      else p in
    setBullets (updateBullets (Bullets p)) p.

End Player.

(** ** Package main *)

(** A loop whose body may panic. *)
Fixpoint foldM {A B : Type} (f : B -> A -> option B) (b : B) (l : list A) : option B :=
  match l with
  | [] => Some b
  | a :: l => b' ← f b a; foldM f b' l
  end.

Module Obstacle.
Record t := mk { X : float64; Y : float64; Width : float64; Height : float64 }.
End Obstacle.

Module PlayerUpdate.
Record t := mk {
  ID : string;
  X : float64;
  Y : float64;
  Angle : float64;
  Health : Z;
  Bullets : list Bullet.t;
}.
End PlayerUpdate.

Module PlayerHit.
Record t := mk { VictimID : string; Damage : Z }.
End PlayerHit.

(** An event as [sendEvent] receives it: the tag with its payload. *)
Inductive Event :=
| EventPlayerUpdate (update : PlayerUpdate.t)
| EventPlayerHit (hit : PlayerHit.t).

(** A line read by [listenForUpdates], after the two [json.Unmarshal] calls. *)
Inductive Frame :=
| FrameMalformed
| FrameBadPayload
| FrameUnknownType
| FramePlayerUpdate (update : PlayerUpdate.t)
| FramePlayerHit (hit : PlayerHit.t).

Module Game.
Local Open Scope float_scope.

Definition ScreenWidth : Z := 1600.
Definition ScreenHeight : Z := 900.
Definition padding : Z := 20.

(** [conn] holds the events handed to [conn.Write], oldest first. *)
Record t := mk {
  player : Player.t;
  players : gmap string Player.t;
  obstacles : list Obstacle.t;
  Objects : list game.Object;
  conn : list Event;
}.

Definition setPlayer (p : Player.t) (g : t) : t :=
  mk p (players g) (obstacles g) (Objects g) (conn g).
Definition setPlayers (ps : gmap string Player.t) (g : t) : t :=
  mk (player g) ps (obstacles g) (Objects g) (conn g).
Definition setConn (c : list Event) (g : t) : t :=
  mk (player g) (players g) (obstacles g) (Objects g) c.


Definition circleRectCollision (cx cy radius : float64) (rect : Obstacle.t) : bool :=
  let closestX := math.Max (Obstacle.X rect) (math.Min cx (Obstacle.X rect + Obstacle.Width rect)) in
  let closestY := math.Max (Obstacle.Y rect) (math.Min cy (Obstacle.Y rect + Obstacle.Height rect)) in
  let dx := cx - closestX in
  let dy := cy - closestY in
  (dx * dx + dy * dy) <? (radius * radius).

Fixpoint collidesWithObstacles (x y radius : float64) (obstacles : list Obstacle.t) : bool :=
  match obstacles with
  | [] => false
  | obstacle :: obstacles =>
      if circleRectCollision x y radius obstacle then true
      else collidesWithObstacles x y radius obstacles
  end.

(** *** castRays *)

(** The intersections of one probe ray with every wall of every object. *)
Definition hitPoints (ray : game.Line) (objects : list game.Object) : list (float64 * float64) :=
  o ← objects;
  wall ← game.Walls o;
  let '(px, py, ok) := game.Intersection ray wall in
  if ok then [(px, py)] else [].

(** The search for the point closest to the start of the ray; [i] is the
    index of the head of [points]. *)
Fixpoint closest (cx cy : float64) (points : list (float64 * float64))
    (i : nat) (min : float64) (minI : nat) : nat :=
  match points with
  | [] => minI
  | p :: points =>
      let d2 := (cx - p.1) * (cx - p.1) + (cy - p.2) * (cy - p.2) in
      if d2 <? min then closest cx cy points (S i) d2 i
      else closest cx cy points (S i) min minI
  end.

(** The body of the loop over the two offsets: one probe. *)
Definition castProbe `{Extern} (cx cy : float64) (objects : list game.Object)
    (rayLength angle : float64) (rays : list game.Line) (offset : float64)
    : option (list game.Line) :=
  let ray := game.NewRay cx cy rayLength (angle + offset) in
  let points := hitPoints ray objects in
  let minI := closest cx cy points 0 (math.Inf 1) 0 in
  if (minI <? length points)%nat
  then
    p ← points !! minI;
    Some (rays ++ [game.mkLine cx cy p.1 p.2])
  else Some rays.

Definition castRaysUnsorted `{Extern} (cx cy : float64) (objects : list game.Object)
    : option (list game.Line) :=
  let rayLength := math.Hypot (F64.of_int ScreenWidth) (F64.of_int ScreenHeight) in
  foldM (fun rays obj =>
    points ← game.Points obj;
    foldM (fun rays p =>
      let l := game.mkLine cx cy p.1 p.2 in
      let angle := game.Angle l in
      foldM (castProbe cx cy objects rayLength angle) rays [-0.001; 0.001])
    rays points)
  [] objects.

Definition castRays `{Extern} (cx cy : float64) (objects : list game.Object)
    : option (list game.Line) :=
  rays ← castRaysUnsorted cx cy objects;
  Some (sort_Slice _ rays (fun ri rj => game.Angle ri <? game.Angle rj)).

(** *** checkBulletCollisions *)

Definition distance (x1 y1 x2 y2 : float64) : float64 :=
  math.Hypot (x2 - x1) (y2 - y1).

(** The slice [hitBoxLines] after [sort.Slice]: a copy of the hit box edges
    ordered by the distance of their midpoints to the bullet. *)
Definition hitBoxLines `{Extern} (otherPlayer : Player.t) (bullet : Bullet.t) : list game.Line :=
  sort_Slice _ (game.Walls (Player.HitBox otherPlayer)) (fun li lj =>
    distance ((game.X2 li + game.X1 li) / 2) ((game.Y2 li + game.Y1 li) / 2) (Bullet.X bullet) (Bullet.Y bullet)
    <? distance ((game.X2 lj + game.X1 lj) / 2) ((game.Y2 lj + game.Y1 lj) / 2) (Bullet.X bullet) (Bullet.Y bullet)).

(** The edges the inner loop ranges over: [otherPlayer.HitBox().Walls],
    computed afresh. *)
Definition examinedLines (otherPlayer : Player.t) : list game.Line :=
  game.Walls (Player.HitBox otherPlayer).

Definition intersects (l : game.Line) (bullet : Bullet.t) : bool :=
  (game.Intersection l (Bullet.Line bullet)).2.

(** The first examined edge that the bullet's segment intersects, where
    the inner loop breaks. *)
Definition firstContact `{Extern} (otherPlayer : Player.t) (bullet : Bullet.t) : option game.Line :=
  let hitBoxLines := hitBoxLines otherPlayer bullet in
  find (fun l => intersects l bullet) (examinedLines otherPlayer).

(** [otherPlayer.Health -= 50], then the clamp. *)
Definition applyHit (otherPlayer : Player.t) : Player.t :=
  let health := Int.sub (Player.Health otherPlayer) 50 in
  let health := if (health <? 0)%Z then 0%Z else health in
  Player.setHealth health otherPlayer.

(** The loop over the local bullets for one target, from the last index
    down (see [Player.updateBullets] for the shape).  It returns the
    target, the bullets left and the events sent, oldest first. *)
Fixpoint scanBullets `{Extern} (otherPlayer : Player.t) (bullets : list Bullet.t)
    : Player.t * list Bullet.t * list Event :=
  match bullets with
  | [] => (otherPlayer, [], [])
  | bullet :: rest =>
      let '(otherPlayer, rest, sent) := scanBullets otherPlayer rest in
      match firstContact otherPlayer bullet with
      | Some _ =>
          (applyHit otherPlayer, rest,
           sent ++ [EventPlayerHit (PlayerHit.mk (Player.ID otherPlayer) 20)])
      | None => (otherPlayer, bullet :: rest, sent)
      end
  end.

(** Whether [json.Marshal] accepts the payload: it refuses a float that
    is NaN or infinite. *)
Definition marshalBullet (b : Bullet.t) : bool :=
  is_finite (Bullet.X b) && is_finite (Bullet.Y b) && is_finite (Bullet.EndX b)
  && is_finite (Bullet.EndY b) && is_finite (Bullet.Direction b) && is_finite (Bullet.Velocity b).

Definition marshal (e : Event) : bool :=
  match e with
  | EventPlayerUpdate u =>
      is_finite (PlayerUpdate.X u) && is_finite (PlayerUpdate.Y u)
      && is_finite (PlayerUpdate.Angle u) && forallb marshalBullet (PlayerUpdate.Bullets u)
  | EventPlayerHit _ => true
  end.

Definition sendEvent (e : Event) (g : t) : t :=
  if marshal e then setConn (conn g ++ [e]) g else g.

(** The body of the loop over [g.players], at the key [k]. *)
Definition checkPlayer `{Extern} (g : t) (k : string) : t :=
  match players g !! k with
  | None => g
  | Some otherPlayer =>
      if (Player.Health otherPlayer <=? 0)%Z
         || String.eqb (Player.ID otherPlayer) (Player.ID (player g))
      then g
      else
        let '(otherPlayer, bullets, sent) := scanBullets otherPlayer (Player.Bullets (player g)) in
        foldl (fun g e => sendEvent e g)
          (setPlayers (<[k := otherPlayer]> (players g))
             (setPlayer (Player.setBullets bullets (player g)) g))
          sent
  end.

(** [order]: the keys of [g.players] in the order the range visits them. *)
Definition checkBulletCollisions `{Extern} (order : list string) (g : t) : t :=
  foldl checkPlayer g order.

Definition sendPlayerUpdate (g : t) : t :=
  let update :=
    {| PlayerUpdate.ID := Player.ID (player g);
       PlayerUpdate.X := Player.X (player g);
       PlayerUpdate.Y := Player.Y (player g);
       PlayerUpdate.Angle := Player.Angle (player g);
       PlayerUpdate.Health := Player.Health (player g);
       PlayerUpdate.Bullets := Player.Bullets (player g) |} in
  sendEvent (EventPlayerUpdate update) g.

Definition Update `{Extern} (inp : Input) (order : list string) (g : t) : t :=
  let collides :=
    collidesWithObstacles (Player.X (player g)) (Player.Y (player g)) 10.0 (obstacles g) in
  let g := setPlayer (Player.Update inp collides (player g)) g in
  let g := checkBulletCollisions order g in
  sendPlayerUpdate g.

(** *** listenForUpdates *)

Definition mergePlayerUpdate `{Extern} (update : PlayerUpdate.t) (g : t) : t :=
  if String.eqb (PlayerUpdate.ID update) (Player.ID (player g)) then g
  else
    let p :=
      match players g !! PlayerUpdate.ID update with
      | Some p => p
      | None => Player.NewPlayer (PlayerUpdate.ID update) (PlayerUpdate.X update) (PlayerUpdate.Y update)
      end in
    let p :=
      {| Player.ID := Player.ID p;
         Player.X := PlayerUpdate.X update;
         Player.Y := PlayerUpdate.Y update;
         Player.Angle := PlayerUpdate.Angle update;
         Player.Health := PlayerUpdate.Health update;
         Player.Bullets := PlayerUpdate.Bullets update;
         Player.lastShot := Player.lastShot p;
         Player.sprite := Player.sprite p |} in
    setPlayers (<[PlayerUpdate.ID update := p]> (players g)) g.

Definition mergePlayerHit (hit : PlayerHit.t) (g : t) : t :=
  let g :=
    match players g !! PlayerHit.VictimID hit with
    | Some player =>
        let health := Int.sub (Player.Health player) (PlayerHit.Damage hit) in
        let health := if (health <? 0)%Z then 0%Z else health in
        setPlayers (<[PlayerHit.VictimID hit := Player.setHealth health player]> (players g)) g
    | None => g
    end in
  if String.eqb (PlayerHit.VictimID hit) (Player.ID (player g))
  then
    setPlayer
      (Player.setHealth (Int.sub (Player.Health (player g)) (PlayerHit.Damage hit)) (player g)) g
  else g.

(** One turn of the loop of [listenForUpdates]. *)
Definition merge `{Extern} (frame : Frame) (g : t) : t :=
  match frame with
  | FramePlayerUpdate update => mergePlayerUpdate update g
  | FramePlayerHit hit => mergePlayerHit hit g
  | FrameMalformed | FrameBadPayload | FrameUnknownType => g
  end.

(** The loop over the lines read until the connection is lost. *)
Definition listenForUpdates `{Extern} (frames : list Frame) (g : t) : t :=
  foldl (fun g frame => merge frame g) g frames.

(** The game [main] builds for a client. *)
Definition newGame `{Extern} (playerID : string) : t :=
  {| player := Player.NewPlayer playerID (F64.of_int (ScreenWidth / 2)) (F64.of_int (ScreenHeight / 2));
     players :=
       list_to_map
         [ ("111"%string, Player.NewPlayer "111" 900 700);
           ("112"%string, Player.NewPlayer "112" 900 750);
           ("222"%string, Player.NewPlayer "222" 600 300);
           ("223"%string, Player.NewPlayer "223" 690 300);
           ("224"%string, Player.NewPlayer "224" 730 300);
           ("333"%string, Player.NewPlayer "333" 100 100);
           ("444"%string, Player.NewPlayer "444" 1300 300) ];
     obstacles := [];
     Objects :=
       [ game.mkObject (game.Rect (F64.of_int padding) (F64.of_int padding)
           (F64.of_int (ScreenWidth - 2 * padding)) (F64.of_int (ScreenHeight - 2 * padding)));
         game.mkObject (game.Rect (F64.of_int (ScreenWidth / 2 - 50))
           (F64.of_int (ScreenHeight / 2 + 50)) 100 100) ];
     conn := [] |}.

End Game.

(** ** Classes of binary64 values, on their specification *)

Module SF.

Definition finite (a : spec_float) : bool :=
  match a with
  | S754_zero _ | S754_finite _ _ _ => true
  | _ => false
  end.

Definition zero (a : spec_float) : bool :=
  match a with
  | S754_zero _ => true
  | _ => false
  end.

End SF.

(** ** The quantities the specification names *)

Module Param.
Import game.
Local Open Scope float_scope.

Definition denom (l1 l2 : Line) : float64 :=
  (X1 l1 - X2 l1) * (Y1 l2 - Y2 l2) - (Y1 l1 - Y2 l1) * (X1 l2 - X2 l2).

Definition tNum (l1 l2 : Line) : float64 :=
  (X1 l1 - X1 l2) * (Y1 l2 - Y2 l2) - (Y1 l1 - Y1 l2) * (X1 l2 - X2 l2).

Definition uNum (l1 l2 : Line) : float64 :=
  - ((X1 l1 - X2 l1) * (Y1 l1 - Y1 l2) - (Y1 l1 - Y2 l1) * (X1 l1 - X1 l2)).

Definition t (l1 l2 : Line) : float64 := tNum l1 l2 / denom l1 l2.

Definition u (l1 l2 : Line) : float64 := uNum l1 l2 / denom l1 l2.

(** The point at offset [t] on a segment. *)
Definition at_ (l : Line) (t : float64) : float64 * float64 :=
  (X1 l + t * (X2 l - X1 l), Y1 l + t * (Y2 l - Y1 l)).

(** The vertex a segment contributes to [Points]. *)
Definition secondEndpoint (wall : Line) : float64 * float64 := (X2 wall, Y2 wall).

(** The sort key of [checkBulletCollisions]: the distance from the midpoint
    of an edge to the bullet. *)
Definition midpointDistance (l : Line) (bullet : Bullet.t) : float64 :=
  Game.distance ((X2 l + X1 l) / 2) ((Y2 l + Y1 l) / 2) (Bullet.X bullet) (Bullet.Y bullet).

(** The bullets of a player are its own. *)
Definition owned (p : Player.t) : Prop :=
  Forall (fun b => Bullet.OwnerID b = Player.ID p) (Player.Bullets p).

End Param.

(** The numerators and the denominator of [Intersection] in exact
    arithmetic, on integer coordinates. *)
Module Exact.
Local Open Scope Z_scope.

Record Line := mkLine { X1 : Z; Y1 : Z; X2 : Z; Y2 : Z }.

Definition denom (l1 l2 : Line) : Z :=
  (X1 l1 - X2 l1) * (Y1 l2 - Y2 l2) - (Y1 l1 - Y2 l1) * (X1 l2 - X2 l2).

Definition tNum (l1 l2 : Line) : Z :=
  (X1 l1 - X1 l2) * (Y1 l2 - Y2 l2) - (Y1 l1 - Y1 l2) * (X1 l2 - X2 l2).

Definition uNum (l1 l2 : Line) : Z :=
  - ((X1 l1 - X2 l1) * (Y1 l1 - Y1 l2) - (Y1 l1 - Y2 l1) * (X1 l1 - X1 l2)).

End Exact.

(** ** A linkage and sample data for closed evaluations *)

(** [insertionSortLessFunc] of package sort, which [sort.Slice] runs on a
    slice of at most 12 elements: each element in turn sinks towards the
    front while it is [less] than its left neighbour.  [sink] works on the
    sorted prefix in reverse. *)
Fixpoint sink {A : Type} (less : A -> A -> bool) (x : A) (revPrefix : list A) : list A :=
  match revPrefix with
  | [] => [x]
  | y :: r => if less x y then y :: sink less x r else x :: y :: r
  end.

Definition insertionSort {A : Type} (l : list A) (less : A -> A -> bool) : list A :=
  rev (foldl (fun acc x => sink less x acc) [] l).

(** A linkage to run the model on: the transcendental functions read at
    the angle 0, insertion sort, and a sprite of 40 by 40 pixels.  The
    general statements below quantify over every linkage. *)
Definition Extern0 : Extern :=
  {| math_Cos := fun _ => 1%float;
     math_Sin := fun _ => 0%float;
     math_Atan2 := fun _ _ => 0%float;
     sort_Slice := @insertionSort;
     PlayerSprite := mkBounds 40 40 |}.

Module Sample.
Local Open Scope float_scope.

(** Two copies of one long diagonal segment: the products overflow. *)
Definition diagonal : game.Line := game.mkLine 0 0 1e200 1e200.

(** Two segments that cross at (1,1). *)
Definition rising : game.Line := game.mkLine 0 0 2 2.
Definition falling : game.Line := game.mkLine 0 2 2 0.

(** An open chain of one vertical segment. *)
Definition post : game.Object := game.mkObject [game.mkLine 0 0 0 5].

(** A boundary with no segment. *)
Definition hollow : game.Object := game.mkObject [].

(** A target at (100,100) whose hit box is [Rect(95, 95, 10, 10)]. *)
Definition target : Player.t := Player.mk "222" 100 100 0 100 [] 0 (mkBounds 40 40).
Definition downed : Player.t := Player.setHealth 0 target.

Definition leftEdge : game.Line := game.mkLine 95 95 95 105.
Definition rightEdge : game.Line := game.mkLine 105 105 105 95.

(** A bullet of the local player at (120,100) flying left: its segment
    runs to (40,100), through the right and the left edge of the box. *)
Definition shot : Bullet.t := Bullet.mk "p1" 120 100 40 100 3.141592653589793 80.

Definition shooter : Player.t := Player.mk "p1" 300 100 0 100 [shot] 0 (mkBounds 40 40).
Definition downedShooter : Player.t := Player.setHealth 0 shooter.

Definition duel (other : Player.t) : Game.t :=
  Game.mk shooter {[ "222"%string := other ]} [] [] [].


(** Sprint, up, left, the pointer at (5,7), the fire button held, one
    second after the zero instant. *)
Definition allKeys : Input :=
  mkInput true true false true false (5, 7)%Z true 1000000000 1000000000 0.25.

End Sample.

(** ** The relay ([startServer]) *)

(** The relay keeps the set of connected clients and, under its mutex,
    writes every line it reads from one client to all the others.
    Connections are named by numbers; [written c] is what was handed to
    [c.Write], oldest first. *)
Module Relay.

Record t := mk { clients : gset nat; written : nat -> list string }.

(** What the accept loop and the reader goroutines do, one locked section
    at a time. *)
Inductive Step :=
| Accept (c : nat)
| ReadLine (c : nat) (msg : string)
| ReadError (c : nat).

Definition start : t := mk ∅ (fun _ => []).

(** [for client := range clients { if client != c { client.Write(msg) } }] *)
Definition broadcast (c : nat) (msg : string) (s : t) : t :=
  mk (clients s)
     (fun client =>
        if decide (client ∈ clients s)
        then (if decide (client = c) then written s client else written s client ++ [msg])
        else written s client).

Definition step (s : t) (e : Step) : t :=
  match e with
  | Accept c => mk ({[c]} ∪ clients s) (written s)
  | ReadLine c msg => broadcast c msg s
  | ReadError c => mk (clients s ∖ {[c]}) (written s)
  end.

Definition run (s : t) (steps : list Step) : t := foldl step s steps.

(** The lines of a run that come from a client other than [d]. *)
Definition fromOthers (d : nat) (steps : list Step) : list string :=
  omap (fun e =>
          match e with
          | ReadLine c msg => if decide (c = d) then None else Some msg
          | _ => None
          end) steps.

(** The run neither accepts nor loses [d]. *)
Definition steady (d : nat) (steps : list Step) : Prop :=
  Forall (fun e => e <> Accept d /\ e <> ReadError d) steps.

End Relay.

(** ** The triangle fan of [Draw] *)

Module Render.

(** The six arguments of [rayVertices]. *)
Record Triangle := mkTriangle {
  AX : float64; AY : float64;
  BX : float64; BY : float64;
  CX : float64; CY : float64;
}.

(** The loop of [Draw] over the rays: turn [i] reads
    [rays[(i+1)%len(rays)]] and builds the triangle of the viewpoint, the
    end of that next ray and the end of [rays[i]]. *)
Definition turn (px py : float64) (rays : list game.Line) (i : nat) (ray : game.Line)
    : option Triangle :=
  if (length rays =? 0)%nat then None
  else
    nextLine ← rays !! ((i + 1) mod length rays)%nat;
    Some (mkTriangle px py (game.X2 nextLine) (game.Y2 nextLine) (game.X2 ray) (game.Y2 ray)).

Definition fan (px py : float64) (rays : list game.Line) : option (list Triangle) :=
  mapM (fun '(i, ray) => turn px py rays i ray) (imap (fun i ray => (i, ray)) rays).

Definition triangle (px py : float64) (ray nextLine : game.Line) : Triangle :=
  mkTriangle px py (game.X2 nextLine) (game.Y2 nextLine) (game.X2 ray) (game.Y2 ray).

End Render.

(** ** Predicates of the further properties *)

Module Inv.
Local Open Scope float_scope.

(** Every remote player is filed under its own identity. *)
Definition keyed (g : Game.t) : Prop :=
  forall k p, Game.players g !! k = Some p -> Player.ID p = k.

(** The squared distance [castRays] minimises. *)
Definition d2 (cx cy : float64) (p : float64 * float64) : float64 :=
  (cx - p.1) * (cx - p.1) + (cy - p.2) * (cy - p.2).

(** A bullet that [OutOfBounds(1600, 900)] does not reject. *)
Definition inField (b : Bullet.t) : Prop := Bullet.OutOfBounds b 1600 900 = false.

(** A segment of length zero at a finite point. *)
Definition degenerate (l : game.Line) : Prop :=
  game.X2 l = game.X1 l /\ game.Y2 l = game.Y1 l
  /\ is_finite (game.X1 l) = true /\ is_finite (game.Y1 l) = true.

(** A segment whose two coordinate differences are finite. *)
Definition finiteSpan (l : game.Line) : Prop :=
  is_finite (game.X1 l - game.X2 l) = true /\ is_finite (game.Y1 l - game.Y2 l) = true.

(** Each segment ends where the next begins, and the last where the first
    begins. *)
Definition closedChain (walls : list game.Line) : Prop :=
  forall i a b,
    walls !! i = Some a ->
    walls !! ((i + 1) mod length walls)%nat = Some b ->
    (game.X2 a, game.Y2 a) = (game.X1 b, game.Y1 b).

(** Whether this call of [Player.Update] shoots. *)
Definition fires (inp : Input) (p : Player.t) : bool :=
  MouseButtonLeft inp
  && (Player.ShootCooldown <? time.Since (SinceNow inp) (Player.lastShot p))%Z.

(** The same player but for its health, which is not higher and not
    below 0. *)
Definition worn (p p' : Player.t) : Prop :=
  Player.setHealth (Player.Health p) p' = p
  /\ (0 <= Player.Health p' <= Player.Health p)%Z.

(** A PlayerHit of damage 20. *)
Definition isHit20 (e : Event) : Prop :=
  exists victim, e = EventPlayerHit (PlayerHit.mk victim 20).

(** The health the world state holds for an identity: the local player's
    when the identity is its own, else that of the map's entry. *)
Definition healthOf (g : Game.t) (id : string) : option Z :=
  if String.eqb id (Player.ID (Game.player g))
  then Some (Player.Health (Game.player g))
  else Player.Health <$> Game.players g !! id.

(** The step [Player.Update] computes from the keys: [(moveX, moveY)]. *)
Definition step (inp : Input) : float64 * float64 :=
  let moveX := 0.0 in
  let moveY := 0.0 in
  let movementSpeed := Player.PlayerSpeed in
  let movementSpeed :=
    if KeyShiftLeft inp then movementSpeed * Player.PlayerSprintSpeedFactor
    else movementSpeed in
  let moveY := if KeyW inp then moveY - movementSpeed else moveY in
  let moveY := if KeyS inp then moveY + movementSpeed else moveY in
  let moveX := if KeyA inp then moveX - movementSpeed else moveX in
  let moveX := if KeyD inp then moveX + movementSpeed else moveX in
  (moveX, moveY).

(** The sort of the linkage rearranges and nothing else. *)
Definition sortPermutes `{Extern} : Prop :=
  forall (A : Type) (l : list A) (less : A -> A -> bool), sort_Slice A l less ≡ₚ l.

End Inv.

(** ** Further predicates and code *)

(** A ray from the viewpoint to a point where a probe from the viewpoint
    meets a wall. *)
Definition sight (cx cy : float64) (objects : list game.Object) (r : game.Line) : Prop :=
  game.X1 r = cx /\ game.Y1 r = cy
  /\ exists probe o wall,
       game.X1 probe = cx /\ game.Y1 probe = cy
       /\ o ∈ objects /\ wall ∈ game.Walls o
       /\ game.Intersection probe wall = (game.X2 r, game.Y2 r, true).

(** What one pass may change: the local bullets, by removal; the health of
    the remote players; and the events written. *)
Record passes (g g' : Game.t) : Prop := mkPasses {
  pass_dom : dom (Game.players g') = dom (Game.players g);
  pass_ids : forall k p', Game.players g' !! k = Some p' ->
               exists p, Game.players g !! k = Some p /\ Player.ID p = Player.ID p';
  pass_player : Player.setBullets (Player.Bullets (Game.player g)) (Game.player g')
                = Game.player g;
  pass_bullets : Player.Bullets (Game.player g') `sublist_of` Player.Bullets (Game.player g);
  pass_obstacles : Game.obstacles g' = Game.obstacles g;
  pass_Objects : Game.Objects g' = Game.Objects g;
  pass_conn : exists sent,
      Game.conn g' = Game.conn g ++ sent
      /\ Forall (fun e => exists k p, Game.players g !! k = Some p
                            /\ e = EventPlayerHit (PlayerHit.mk (Player.ID p) 20)) sent
      /\ (length (Player.Bullets (Game.player g')) + length sent
          = length (Player.Bullets (Game.player g)))%nat;
}.

(** The payload [sendPlayerUpdate] builds of a player. *)
Definition snapshot (p : Player.t) : PlayerUpdate.t :=
  {| PlayerUpdate.ID := Player.ID p;
     PlayerUpdate.X := Player.X p;
     PlayerUpdate.Y := Player.Y p;
     PlayerUpdate.Angle := Player.Angle p;
     PlayerUpdate.Health := Player.Health p;
     PlayerUpdate.Bullets := Player.Bullets p |}.

(** ** The variant of package player with bullets that age
    (src/unnamed/part_001) *)

Module part_001.

Module Bullet.
Local Open Scope float_scope.

Record t := mk {
  OwnerID : string;
  X : float64;
  Y : float64;
  Direction : float64;
  Frames : Z;
}.

(** [b.Frames++]; the rest of the body is empty or commented out. *)
Definition Update (b : t) : t :=
  mk (OwnerID b) (X b) (Y b) (Direction b) (Int.wrap (Frames b + 1)).

Definition OutOfBounds (b : t) (width height : float64) : bool :=
  (X b <? 0) || (X b >? width) || (Y b <? 0) || (Y b >? height).

End Bullet.

Module Player.
Local Open Scope float_scope.

Definition MaxHealth : Z := 100.
Definition PlayerSpeed : float64 := 1.0.
Definition PlayerSprintSpeedFactor : float64 := 1.7.
Definition ShootCooldown : Z := (200 * time.Millisecond)%Z.

Record t := mk {
  ID : string;
  X : float64;
  Y : float64;
  Angle : float64;
  Health : Z;
  Bullets : list Bullet.t;
  lastShot : Z;
  sprite : Bounds;
}.

Definition setBullets (bs : list Bullet.t) (p : t) : t :=
  mk (ID p) (X p) (Y p) (Angle p) (Health p) bs (lastShot p) (sprite p).
Definition setLastShot (ts : Z) (p : t) : t :=
  mk (ID p) (X p) (Y p) (Angle p) (Health p) (Bullets p) ts (sprite p).
Definition setPose (x y angle : float64) (p : t) : t :=
  mk (ID p) x y angle (Health p) (Bullets p) (lastShot p) (sprite p).

Definition Shoot (p : t) : t :=
  setBullets (Bullets p ++ [Bullet.mk (ID p) (X p) (Y p) (Angle p) 10]) p.

(** The step the keys ask for. *)
Definition move (inp : Input) : float64 * float64 :=
  let moveX := 0.0 in
  let moveY := 0.0 in
  let movementSpeed := PlayerSpeed in
  let movementSpeed :=
    if KeyShiftLeft inp then movementSpeed * PlayerSprintSpeedFactor
    else movementSpeed in
  let moveY := if KeyW inp then moveY - movementSpeed else moveY in
  let moveY := if KeyS inp then moveY + movementSpeed else moveY in
  let moveX := if KeyA inp then moveX - movementSpeed else moveX in
  let moveX := if KeyD inp then moveX + movementSpeed else moveX in
  (moveX, moveY).

(** The condition of the shot. *)
Definition fires (inp : Input) (p : t) : bool :=
  MouseButtonLeft inp
  && (ShootCooldown <? time.Since (SinceNow inp) (lastShot p))%Z.

(** The loop [for i := len(p.Bullets) - 1; i >= 0; i--] with its two
    removals; [n] is [i + 1].  The slice holds pointers, so the update is
    written back at the index; each [p.Bullets[i]] is an index into the
    slice as it is at that moment and panics when [i] is its length. *)
Fixpoint updateBullets (n : nat) (bullets : list Bullet.t) : option (list Bullet.t) :=
  match n with
  | O => Some bullets
  | S i =>
      b ← bullets !! i;
      let bullets := <[i := Bullet.Update b]> bullets in
      b ← bullets !! i;
      let bullets := if Bullet.OutOfBounds b 1600 900 then delete i bullets else bullets in
      b ← bullets !! i;
      let bullets := if (Bullet.Frames b >? 15)%Z then delete i bullets else bullets in
      updateBullets i bullets
  end.

Definition Update `{Extern} (inp : Input) (p : t) : option t :=
  if (Health p <=? 0)%Z then Some p
  else
    let '(moveX, moveY) := move inp in
    let x := X p + moveX in
    let y := Y p + moveY in
    let '(mx, my) := CursorPosition inp in
    let dx := F64.of_int mx - x in
    let dy := F64.of_int my - y in
    let p := setPose x y (math_Atan2 dy dx) p in
    let p := if fires inp p then setLastShot (ShotNow inp) (Shoot p) else p in
    bullets ← updateBullets (length (Bullets p)) (Bullets p);
    Some (setBullets bullets p).

End Player.

End part_001.

(** ** The circle test of the older collision code *)

Section Circle.
Local Open Scope float_scope.

Definition LineIntersectsCircle (x1 y1 x2 y2 cx cy radius : float64) : bool :=
  let dx := x2 - x1 in
  let dy := y2 - y1 in
  let fx := x1 - cx in
  let fy := y1 - cy in
  let a := dx * dx + dy * dy in
  let b := 2 * (fx * dx + fy * dy) in
  let c := (fx * fx + fy * fy) - radius * radius in
  let discriminant := b * b - 4 * a * c in
  if discriminant <? 0 then false
  else
    let discriminant := sqrt discriminant in
    let t0 := (- b - discriminant) / (2 * a) in
    let t1 := (- b + discriminant) / (2 * a) in
    ((0 <=? t0) && (t0 <=? 1)) || ((0 <=? t1) && (t1 <=? 1)).

(** A zero of either sign, or no number. *)
Definition vanishing (x : float64) : Prop :=
  match Prim2SF x with
  | S754_zero _ | S754_nan => True
  | _ => False
  end.

End Circle.

Module SampleAgeing.

(** A player of the variant on the left edge of the field, and the keys
    that step left and fire. *)
Definition edgeWalker : part_001.Player.t :=
  part_001.Player.mk "p1" 0 450 0 100 [] 0 (mkBounds 40 40).

Definition leftAndFire : Input :=
  mkInput false false false true false (0, 0)%Z true 1000000000 1000000000 0.

Definition fresh : part_001.Bullet.t := part_001.Bullet.mk "p1" 800 450 0 10.
Definition aged : part_001.Bullet.t := part_001.Bullet.mk "p1" 800 450 0 15.

End SampleAgeing.

(** ** Facts on binary64 comparisons *)

Section Float64Facts.
Local Open Scope float_scope.

Lemma SFcompare_antisym (a b : spec_float) :
  SFcompare b a = option_map CompOpp (SFcompare a b).
Proof.
  destruct a as [sa|sa| |sa ma ea], b as [sb|sb| |sb mb eb]; simpl;
    try reflexivity; try (destruct sa; reflexivity); try (destruct sb; reflexivity);
    try (destruct sa, sb; reflexivity).
  assert (Hm : Pos.compare_cont Eq mb ma = CompOpp (Pos.compare_cont Eq ma mb))
    by (symmetry; apply (Pos.compare_cont_antisym ma mb Eq)).
  destruct sa, sb; try reflexivity;
    rewrite (Z.compare_antisym ea eb), Hm;
    destruct (ea ?= eb)%Z; simpl; try reflexivity;
    destruct (Pos.compare_cont Eq ma mb); reflexivity.
Qed.

Lemma SFcompare_defined (a b : spec_float) :
  a <> S754_nan -> b <> S754_nan -> exists c, SFcompare a b = Some c.
Proof.
  intros Ha Hb.
  destruct a as [sa|sa| |sa ma ea], b as [sb|sb| |sb mb eb]; simpl;
    try congruence; eauto.
Qed.

Lemma is_nan_Prim2SF (x : float64) :
  is_nan x = false -> Prim2SF x <> S754_nan.
Proof.
  unfold is_nan. rewrite FloatAxioms.eqb_spec. intros H E. rewrite E in H. discriminate H.
Qed.

(** Off NaN, [not (y < x)] is [x <= y]. *)
Lemma ltb_false_iff_leb (x y : float64) :
  is_nan x = false -> is_nan y = false ->
  (y <? x) = false <-> (x <=? y) = true.
Proof.
  intros Hx%is_nan_Prim2SF Hy%is_nan_Prim2SF.
  rewrite FloatAxioms.ltb_spec, FloatAxioms.leb_spec. unfold SFltb, SFleb.
  rewrite (SFcompare_antisym (Prim2SF x) (Prim2SF y)).
  destruct (SFcompare_defined _ _ Hx Hy) as [c ->].
  destruct c; simpl; split; congruence.
Qed.

(** Off NaN, the two rejections of [Intersection] are the complement of
    the closed range. *)
Lemma in01_iff_not_rejected (t : float64) :
  is_nan t = false ->
  F64.in01 t = true <-> ((t >? 1) || (t <? 0)) = false.
Proof.
  intros Ht. unfold F64.in01, F64.gtb.
  rewrite andb_true_iff, orb_false_iff.
  rewrite <- (ltb_false_iff_leb t 1 Ht eq_refl).
  rewrite <- (ltb_false_iff_leb 0 t eq_refl Ht).
  tauto.
Qed.

End Float64Facts.

(** ** Division never invents a NaN *)

Section DivisionFacts.
Local Open Scope Z_scope.

Lemma shr_1_nonneg (mrs : shr_record) : 0 <= shr_m mrs -> 0 <= shr_m (shr_1 mrs).
Proof.
  destruct mrs as [m r s]. cbn [shr_m]. intros Hm.
  destruct m as [|[p|p|]|p]; cbn; lia.
Qed.

Lemma iter_pos_preserves {A : Type} (P : A -> Prop) (f : A -> A) :
  (forall x, P x -> P (f x)) -> forall (p : positive) (x : A), P x -> P (SpecFloat.iter_pos f p x).
Proof.
  intros Hf. induction p as [p IH|p IH|]; intros x Hx; cbn [SpecFloat.iter_pos]; auto.
Qed.

Lemma shr_nonneg (mrs : shr_record) (e n : Z) :
  0 <= shr_m mrs -> 0 <= shr_m (shr mrs e n).1.
Proof.
  intros Hm. unfold shr. destruct n; cbn [fst]; try exact Hm.
  apply (iter_pos_preserves (fun mrs => 0 <= shr_m mrs)); [apply shr_1_nonneg | exact Hm].
Qed.

Lemma shr_fexp_nonneg (prec emax m e : Z) (l : location) :
  0 <= m -> 0 <= shr_m (shr_fexp prec emax m e l).1.
Proof.
  intros Hm. unfold shr_fexp. apply shr_nonneg.
  destruct l as [|[]]; exact Hm.
Qed.

Lemma round_nearest_even_nonneg (mx : Z) (lx : location) :
  0 <= mx -> 0 <= round_nearest_even mx lx.
Proof.
  intros Hm. unfold round_nearest_even. destruct lx as [|[]]; try lia.
  destruct (Z.even mx); lia.
Qed.

Lemma binary_round_aux_number (prec emax : Z) (sx : bool) (mx ex : Z) (lx : location) :
  0 <= mx -> binary_round_aux prec emax sx mx ex lx <> S754_nan.
Proof.
  intros Hm. unfold binary_round_aux.
  pose proof (shr_fexp_nonneg prec emax mx ex lx Hm) as H1.
  destruct (shr_fexp prec emax mx ex lx) as [mrs' e']. cbn [fst] in H1.
  pose proof (shr_fexp_nonneg prec emax _ e' loc_Exact
                (round_nearest_even_nonneg _ (loc_of_shr_record mrs') H1)) as H2.
  destruct (shr_fexp prec emax _ e' loc_Exact) as [mrs'' e'']. cbn [fst] in H2.
  destruct (shr_m mrs'') as [|m|m]; [discriminate | | lia].
  destruct (e'' <=? emax - prec); discriminate.
Qed.

Lemma SFdiv_core_binary_nonneg (prec emax : Z) (m1 m2 : positive) (e1 e2 : Z) :
  0 <= (SFdiv_core_binary prec emax (Z.pos m1) e1 (Z.pos m2) e2).1.1.
Proof.
  unfold SFdiv_core_binary.
  set (s := _ - _ - Z.min _ _).
  set (m' := match s with Z.pos _ => Z.shiftl (Z.pos m1) s | 0 => Z.pos m1 | Z.neg _ => 0 end).
  assert (Hm' : 0 <= m').
  { subst m'. destruct s; try lia. apply Z.shiftl_nonneg. lia. }
  pose proof (Z.div_pos m' (Z.pos m2) Hm' ltac:(lia)) as Hq.
  unfold Z.div in Hq. destruct (Z.div_eucl m' (Z.pos m2)) as [q r]. exact Hq.
Qed.

Lemma SFdiv_number (prec emax : Z) (a b : spec_float) :
  SF.finite a = true -> SF.finite b = true -> SF.zero b = false ->
  SFdiv prec emax a b <> S754_nan.
Proof.
  destruct a as [sa|sa| |sa ma ea], b as [sb|sb| |sb mb eb]; cbn; try discriminate.
  intros _ _ _.
  pose proof (SFdiv_core_binary_nonneg prec emax ma mb ea eb) as Hq.
  destruct (SFdiv_core_binary prec emax (Z.pos ma) ea (Z.pos mb) eb) as [[mz ez] lz].
  apply binary_round_aux_number. exact Hq.
Qed.

End DivisionFacts.

Section NumberFacts.
Local Open Scope float_scope.

Lemma SFcompare_refl (a : spec_float) : a <> S754_nan -> SFcompare a a = Some Eq.
Proof.
  destruct a as [s|s| |s m e]; cbn; try congruence; try (destruct s; reflexivity).
  intros _. rewrite Z.compare_refl.
  assert (Pos.compare_cont Eq m m = Eq) as -> by apply Pos.compare_cont_refl.
  destruct s; reflexivity.
Qed.

Lemma Prim2SF_is_nan (x : float64) : Prim2SF x <> S754_nan -> is_nan x = false.
Proof.
  intros Hx. unfold is_nan. rewrite FloatAxioms.eqb_spec. unfold SFeqb.
  rewrite (SFcompare_refl _ Hx). reflexivity.
Qed.

Lemma is_finite_SF_finite (x : float64) : is_finite x = true -> SF.finite (Prim2SF x) = true.
Proof.
  unfold is_finite, is_nan, is_infinity.
  rewrite !FloatAxioms.eqb_spec, FloatAxioms.abs_spec.
  change (Prim2SF infinity) with (S754_infinity false).
  destruct (Prim2SF x) as [s|s| |s m e]; cbn; try reflexivity.
  - destruct s; cbn; discriminate.
  - discriminate.
Qed.

Lemma eqb_zero_SF_zero (x : float64) : (x =? 0) = false -> SF.zero (Prim2SF x) = false.
Proof.
  rewrite FloatAxioms.eqb_spec. change (Prim2SF 0) with (S754_zero false).
  destruct (Prim2SF x) as [s|s| |s m e]; cbn; try reflexivity. discriminate.
Qed.

Lemma div_finite_is_number (x y : float64) :
  is_finite x = true -> is_finite y = true -> (y =? 0) = false ->
  is_nan (x / y) = false.
Proof.
  intros Hx Hy Hz. apply Prim2SF_is_nan. rewrite FloatAxioms.div_spec.
  apply SFdiv_number;
    [apply is_finite_SF_finite, Hx | apply is_finite_SF_finite, Hy | apply eqb_zero_SF_zero, Hz].
Qed.

End NumberFacts.

(** ** Intersection *)

Section IntersectionFacts.
Import game.
Local Open Scope float_scope.

Lemma Intersection_unfold (l1 l2 : Line) :
  Intersection l1 l2 =
    if Param.denom l1 l2 =? 0 then (0, 0, false)
    else if (Param.t l1 l2 >? 1) || (Param.t l1 l2 <? 0) then (0, 0, false)
    else if (Param.u l1 l2 >? 1) || (Param.u l1 l2 <? 0) then (0, 0, false)
    else (Param.at_ l1 (Param.t l1 l2), true).
Proof. reflexivity. Qed.

(** Whatever the coordinates, a refusal is [(0, 0, false)]. *)
Lemma Intersection_refusal (l1 l2 : Line) (x y : float64) :
  Intersection l1 l2 = (x, y, false) -> x = 0 /\ y = 0.
Proof.
  rewrite Intersection_unfold.
  repeat match goal with |- context [if ?b then _ else _] => destruct b end;
    intros [= <- <-]; auto.
Qed.

(** Where the denominator and the two numerators are finite, the
    coefficients, once computed, are numbers. *)
Lemma finite_quotients_are_numbers (l1 l2 : Line) :
  is_finite (Param.denom l1 l2) = true ->
  is_finite (Param.tNum l1 l2) = true ->
  is_finite (Param.uNum l1 l2) = true ->
  (Param.denom l1 l2 =? 0) = false ->
  is_nan (Param.t l1 l2) = false /\ is_nan (Param.u l1 l2) = false.
Proof.
  intros Hd Ht Hu Hz. split; apply div_finite_is_number; assumption.
Qed.

(** C1 (amended). For every pair of segments whose parametric coefficients
    are numbers whenever they are computed (denom not equal to zero),
    [Intersection] returns a point exactly when denom is not zero and both
    t and u lie in the closed range [0,1], bounds included; the point is
    (x1 + t*(x2-x1), y1 + t*(y2-y1)) on the first segment; and when denom
    equals zero no intersection is returned. *)
Theorem Intersection_closed_range (l1 l2 : Line) :
  ((Param.denom l1 l2 =? 0) = false ->
     is_nan (Param.t l1 l2) = false /\ is_nan (Param.u l1 l2) = false) ->
  (forall x y,
     Intersection l1 l2 = (x, y, true) <->
       (Param.denom l1 l2 =? 0) = false
       /\ F64.in01 (Param.t l1 l2) = true
       /\ F64.in01 (Param.u l1 l2) = true
       /\ (x, y) = Param.at_ l1 (Param.t l1 l2))
  /\ ((Param.denom l1 l2 =? 0) = true -> Intersection l1 l2 = (0, 0, false)).
Proof.
  intros Hnum. rewrite Intersection_unfold. split.
  - intros x y. destruct (Param.denom l1 l2 =? 0) eqn:Hd.
    + split; [discriminate | intros [? _]; discriminate].
    + destruct (Hnum eq_refl) as [Ht Hu].
      rewrite (in01_iff_not_rejected _ Ht), (in01_iff_not_rejected _ Hu).
      destruct ((Param.t l1 l2 >? 1) || (Param.t l1 l2 <? 0));
        [split; [discriminate | intros (_ & ? & _); discriminate] |].
      destruct ((Param.u l1 l2 >? 1) || (Param.u l1 l2 <? 0));
        [split; [discriminate | intros (_ & _ & ? & _); discriminate] |].
      split.
      * intros E. repeat split. congruence.
      * intros (_ & _ & _ & E). congruence.
  - intros ->. reflexivity.
Qed.

Lemma Intersection_closed_range_witness :
  ((Param.denom Sample.rising Sample.falling =? 0) = false ->
     is_nan (Param.t Sample.rising Sample.falling) = false
     /\ is_nan (Param.u Sample.rising Sample.falling) = false)
  /\ Intersection Sample.rising Sample.falling = (1, 1, true).
Proof.
  assert (H : (Param.denom Sample.rising Sample.falling =? 0) = false ->
     is_nan (Param.t Sample.rising Sample.falling) = false
     /\ is_nan (Param.u Sample.rising Sample.falling) = false)
    by (intros _; split; reflexivity).
  split; [exact H |].
  apply (proj1 (Intersection_closed_range Sample.rising Sample.falling H) 1 1).
  repeat split; reflexivity.
Defined.

(** C1, as stated, fails where the arithmetic overflows: on two copies of a
    long diagonal denom is NaN (not zero), t is NaN (outside [0,1]), and a
    point is returned all the same. *)
Lemma Intersection_nan_passes :
  Intersection Sample.diagonal Sample.diagonal = (nan, nan, true)
  /\ (Param.denom Sample.diagonal Sample.diagonal =? 0) = false
  /\ F64.in01 (Param.t Sample.diagonal Sample.diagonal) = false.
Proof. repeat split; reflexivity. Qed.

End IntersectionFacts.

(** In exact arithmetic the two offsets name one point: with t = tNum/denom
    on the first segment and u = uNum/denom on the second,
    P1 + t (P2 - P1) = P3 + u (P4 - P3), here cleared of the division. *)
Lemma Exact_offsets_meet (l1 l2 : Exact.Line) :
  (Exact.denom l1 l2 * Exact.X1 l1 + Exact.tNum l1 l2 * (Exact.X2 l1 - Exact.X1 l1)
   = Exact.denom l1 l2 * Exact.X1 l2 + Exact.uNum l1 l2 * (Exact.X2 l2 - Exact.X1 l2))%Z
  /\ (Exact.denom l1 l2 * Exact.Y1 l1 + Exact.tNum l1 l2 * (Exact.Y2 l1 - Exact.Y1 l1)
   = Exact.denom l1 l2 * Exact.Y1 l2 + Exact.uNum l1 l2 * (Exact.Y2 l2 - Exact.Y1 l2))%Z.
Proof. unfold Exact.denom, Exact.tNum, Exact.uNum. split; ring. Qed.

(** ** Points *)

Section PointsFacts.
Import game.
Local Open Scope float_scope.

(** What [Points] computes on a boundary with a first segment [w]: the
    second endpoints, then the start of [w] when BOTH of its coordinates
    differ from those of the last vertex. *)
Lemma Points_nonempty (w : Line) (ws : list Line) :
  let last := List.last (Param.secondEndpoint <$> (w :: ws)) (0, 0) in
  Points (mkObject (w :: ws)) =
    Some ((Param.secondEndpoint <$> (w :: ws))
          ++ (if (X1 w !=? last.1) && (Y1 w !=? last.2) then [(X1 w, Y1 w)] else [])).
Proof.
  cbv zeta. unfold Points. cbn [Walls lookup list_lookup mbind option_bind].
  change ((fun wall : Line => (X2 wall, Y2 wall)) <$> w :: ws)
    with (Param.secondEndpoint <$> (w :: ws)).
  set (pts := Param.secondEndpoint <$> (w :: ws)).
  assert (Hl : pts !! (length pts - 1)%nat = Some (List.last pts (0, 0))).
  { assert (Hne : pts <> []) by (subst pts; discriminate).
    clearbody pts. induction pts as [|a [|b r] IH]; [congruence | reflexivity |].
    specialize (IH ltac:(discriminate)).
    cbn [length Nat.sub] in *. rewrite Nat.sub_0_r in *.
    cbn [lookup list_lookup]. exact IH. }
  rewrite Hl. cbn [mbind option_bind fst snd].
  destruct ((X1 w !=? (List.last pts (0, 0)).1) && (Y1 w !=? (List.last pts (0, 0)).2));
    [reflexivity | rewrite app_nil_r; reflexivity].
Qed.

Lemma Points_empty : Points (mkObject []) = None.
Proof. reflexivity. Qed.

(** A closed rectangle gives its four corners once each, as soon as one
    coordinate of its origin is a number. *)
Lemma Points_Rect (x y w h : float64) :
  is_nan x = false \/ is_nan y = false ->
  Points (mkObject (Rect x y w h)) =
    Some [ (x, y + h); (x + w, y + h); (x + w, y); (x, y) ].
Proof.
  intros Hxy. unfold Rect. rewrite Points_nonempty.
  cbn [fmap list_fmap List.last Param.secondEndpoint X1 Y1 X2 Y2 fst snd app].
  unfold is_nan in Hxy. unfold F64.neb.
  destruct Hxy as [-> | ->]; [reflexivity | rewrite andb_false_r; reflexivity].
Qed.

(** C7 (code bug). On the open chain of the single segment (0,0)-(0,5)
    the start point (0,0) differs from the last vertex (0,5), and [Points]
    returns the vertex (0,5) alone: the test asks both coordinates to
    differ, and the two x coordinates agree. *)
Theorem Points_open_chain_drops_start :
  Points Sample.post = Some [(0, 5)]
  /\ (0, 0) <> (0, 5) :> float64 * float64.
Proof.
  split; [reflexivity |].
  intros E. apply (f_equal (fun p => snd p =? 0)) in E. vm_compute in E. discriminate E.
Qed.

End PointsFacts.

(** ** Player.Update *)

Section PlayerUpdateFacts.
Context `{Extern}.

(** C10. A player whose health is 0 or less is returned unchanged by
    [Player.Update], whatever the input: position, angle, bullets and the
    instant of the last shot stay as they were, no shot is created and no
    bullet is advanced or removed. *)
Theorem Update_downed_noop (inp : Input) (hitsObstacle : bool) (p : Player.t) :
  (Player.Health p <= 0)%Z ->
  Player.Update inp hitsObstacle p = p.
Proof.
  intros Hh. unfold Player.Update.
  destruct (Z.leb_spec (Player.Health p) 0); [reflexivity | lia].
Qed.

(** Every bullet [Shoot] adds is owned by the shooter, and [Update]
    keeps the bullets of a player its own. *)
Lemma updateBullets_owner (id : string) (bs : list Bullet.t) :
  Forall (fun b => Bullet.OwnerID b = id) bs ->
  Forall (fun b => Bullet.OwnerID b = id) (Player.updateBullets bs).
Proof.
  induction 1 as [|b bs Hb _ IH]; cbn [Player.updateBullets]; [constructor |].
  destruct (Bullet.OutOfBounds _ _ _); [exact IH | constructor; [exact Hb | exact IH]].
Qed.

Lemma Update_owned (inp : Input) (hitsObstacle : bool) (p : Player.t) :
  Param.owned p -> Param.owned (Player.Update inp hitsObstacle p).
Proof.
  unfold Param.owned, Player.Update. intros Hp.
  destruct (Player.Health p <=? 0)%Z; [exact Hp |].
  destruct (CursorPosition inp) as [mx my].
  destruct (MouseButtonLeft inp && _); cbn;
    apply updateBullets_owner; [| exact Hp].
  apply Forall_app; split; [exact Hp | repeat constructor].
Qed.

End PlayerUpdateFacts.

Lemma Update_downed_noop_witness :
  (Player.Health Sample.downedShooter <= 0)%Z
  /\ @Player.Update Extern0 Sample.allKeys false Sample.downedShooter = Sample.downedShooter.
Proof.
  assert (Hh : (Player.Health Sample.downedShooter <= 0)%Z) by (vm_compute; discriminate).
  split; [exact Hh |].
  exact (@Update_downed_noop Extern0 Sample.allKeys false Sample.downedShooter Hh).
Defined.

(** ** Frame lemmas for sendEvent *)

Section SendFacts.

Lemma sendEvent_player (e : Event) (g : Game.t) :
  Game.player (Game.sendEvent e g) = Game.player g.
Proof. unfold Game.sendEvent. destruct (Game.marshal e); reflexivity. Qed.

Lemma sendEvent_players (e : Event) (g : Game.t) :
  Game.players (Game.sendEvent e g) = Game.players g.
Proof. unfold Game.sendEvent. destruct (Game.marshal e); reflexivity. Qed.

Lemma sendEvents_player (sent : list Event) (g : Game.t) :
  Game.player (foldl (fun g e => Game.sendEvent e g) g sent) = Game.player g.
Proof.
  revert g. induction sent as [|e sent IH]; intros g; [reflexivity |].
  cbn [foldl]. rewrite IH. apply sendEvent_player.
Qed.

Lemma sendEvents_players (sent : list Event) (g : Game.t) :
  Game.players (foldl (fun g e => Game.sendEvent e g) g sent) = Game.players g.
Proof.
  revert g. induction sent as [|e sent IH]; intros g; [reflexivity |].
  cbn [foldl]. rewrite IH. apply sendEvent_players.
Qed.

End SendFacts.

(** ** Game.Update and the obstacles *)


(** ** checkBulletCollisions *)

Section CollisionFacts.
Context `{Extern}.
Local Open Scope float_scope.

Lemma firstContact_examined (otherPlayer : Player.t) (bullet : Bullet.t) :
  Game.firstContact otherPlayer bullet =
    find (fun l => Game.intersects l bullet) (game.Walls (Player.HitBox otherPlayer)).
Proof. reflexivity. Qed.

(** The key of the sort is the distance of the midpoint to the bullet. *)
Lemma hitBoxLines_key (otherPlayer : Player.t) (bullet : Bullet.t) :
  Game.hitBoxLines otherPlayer bullet =
    sort_Slice _ (Game.examinedLines otherPlayer)
      (fun li lj => Param.midpointDistance li bullet <? Param.midpointDistance lj bullet).
Proof. reflexivity. Qed.

Lemma applyHit_ID (otherPlayer : Player.t) :
  Player.ID (Game.applyHit otherPlayer) = Player.ID otherPlayer.
Proof. reflexivity. Qed.

Lemma applyHit_nonneg (otherPlayer : Player.t) :
  (0 <= Player.Health (Game.applyHit otherPlayer))%Z.
Proof.
  unfold Game.applyHit. cbn.
  destruct (Z.ltb_spec (Int.sub (Player.Health otherPlayer) 50) 0); lia.
Qed.

(** One pass over the bullets for one target: every bullet either stays or
    is spent on exactly one hit; every event names the target and carries
    the damage 20; and the health never goes below 0. *)
Lemma scanBullets_account (otherPlayer : Player.t) (bullets : list Bullet.t) :
  let '(otherPlayer', rest, sent) := Game.scanBullets otherPlayer bullets in
  (length rest + length sent = length bullets)%nat
  /\ Player.ID otherPlayer' = Player.ID otherPlayer
  /\ Forall (fun e => e = EventPlayerHit (PlayerHit.mk (Player.ID otherPlayer) 20)) sent
  /\ ((0 <= Player.Health otherPlayer)%Z -> (0 <= Player.Health otherPlayer')%Z).
Proof.
  induction bullets as [|b bs IH]; cbn [Game.scanBullets].
  - repeat split; auto.
  - destruct (Game.scanBullets otherPlayer bs) as [[o' rest] sent].
    destruct IH as (Hlen & Hid & Hev & Hh).
    destruct (Game.firstContact o' b).
    + repeat split.
      * rewrite length_app. cbn. lia.
      * rewrite applyHit_ID. exact Hid.
      * apply Forall_app. split; [exact Hev |]. repeat constructor. rewrite Hid. reflexivity.
      * intros _. apply applyHit_nonneg.
    + repeat split; auto. cbn. lia.
Qed.

(** C3 (code bug). The bullet of the sample crosses the hit box of a target
    at health 100.  The target's health falls to 50, a decrement of 50; the
    bullet is removed; and the PlayerHit sent to the peers carries the
    damage 20. *)
Theorem hit_decrement_differs_from_broadcast :
  let g := Game.checkBulletCollisions ["222"%string] (Sample.duel Sample.target) in
  Player.Health Sample.target = 100%Z
  /\ Player.Health <$> (Game.players g !! "222"%string) = Some 50%Z
  /\ Player.Bullets (Game.player g) = []
  /\ Game.conn g = [EventPlayerHit (PlayerHit.mk "222" 20)].
Proof. vm_compute. repeat split; reflexivity. Qed.

(** C5 (code bug). The bullet at (120,100) crosses both the right edge
    (midpoint at distance 15) and the left edge (midpoint at distance 25)
    of the target's box.  The loop ranges over a fresh
    [otherPlayer.HitBox().Walls], whose first edge is the left one, and
    breaks there: the contact is the edge farthest from the bullet. *)
Theorem contact_is_not_the_nearest_edge :
  Game.examinedLines Sample.target = game.Rect 95 95 10 10
  /\ Game.firstContact Sample.target Sample.shot = Some Sample.leftEdge
  /\ Game.intersects Sample.rightEdge Sample.shot = true
  /\ (Param.midpointDistance Sample.rightEdge Sample.shot
      <? Param.midpointDistance Sample.leftEdge Sample.shot) = true.
Proof. repeat split; reflexivity. Qed.

End CollisionFacts.

(** With insertion sort for [sort.Slice], the sorted copy does start with
    the right edge; the loop does not read it. *)
Lemma hitBoxLines_sorted_sample :
  @Game.hitBoxLines Extern0 Sample.target Sample.shot =
    [ Sample.rightEdge;
      game.mkLine 95 105 105 105;
      game.mkLine 105 95 95 95;
      Sample.leftEdge ].
Proof. reflexivity. Qed.

(** ** Who is skipped by checkBulletCollisions *)

Section SkipFacts.
Context `{Extern}.

Lemma checkPlayer_skip (g : Game.t) (k : string) (p : Player.t) :
  Game.players g !! k = Some p ->
  (Player.Health p <= 0)%Z \/ Player.ID p = Player.ID (Game.player g) ->
  Game.checkPlayer g k = g.
Proof.
  intros Hk Hskip. unfold Game.checkPlayer. rewrite Hk.
  destruct Hskip as [Hh | Hid].
  - destruct (Z.leb_spec (Player.Health p) 0); [reflexivity | lia].
  - apply String.eqb_eq in Hid. rewrite Hid, orb_true_r. reflexivity.
Qed.

Lemma checkPlayer_ID (g : Game.t) (k : string) :
  Player.ID (Game.player (Game.checkPlayer g k)) = Player.ID (Game.player g).
Proof.
  unfold Game.checkPlayer.
  destruct (Game.players g !! k) as [q|]; [| reflexivity].
  destruct (_ || _); [reflexivity |].
  destruct (Game.scanBullets q _) as [[q' bs] sent].
  rewrite sendEvents_player. reflexivity.
Qed.

Lemma checkPlayer_other (g : Game.t) (k k' : string) :
  k <> k' ->
  Game.players (Game.checkPlayer g k') !! k = Game.players g !! k.
Proof.
  intros Hne. unfold Game.checkPlayer.
  destruct (Game.players g !! k') as [q|]; [| reflexivity].
  destruct (_ || _); [reflexivity |].
  destruct (Game.scanBullets q _) as [[q' bs] sent].
  rewrite sendEvents_players. cbn. apply lookup_insert_ne. congruence.
Qed.

Lemma checkBulletCollisions_ID (order : list string) (g : Game.t) :
  Player.ID (Game.player (Game.checkBulletCollisions order g)) = Player.ID (Game.player g).
Proof.
  unfold Game.checkBulletCollisions. revert g.
  induction order as [|k order IH]; intros g; [reflexivity |].
  cbn [foldl]. rewrite IH. apply checkPlayer_ID.
Qed.

(** The record of a skipped player survives the whole pass. *)
Lemma checkBulletCollisions_keeps_skipped
    (order : list string) (g : Game.t) (k : string) (p : Player.t) :
  Game.players g !! k = Some p ->
  (Player.Health p <= 0)%Z \/ Player.ID p = Player.ID (Game.player g) ->
  Game.players (Game.checkBulletCollisions order g) !! k = Some p.
Proof.
  unfold Game.checkBulletCollisions.
  revert g. induction order as [|k' order IH]; intros g Hk Hskip; [exact Hk |].
  cbn [foldl]. apply IH.
  - destruct (decide (k = k')) as [<- | Hne].
    + rewrite (checkPlayer_skip g k p Hk Hskip). exact Hk.
    + rewrite (checkPlayer_other g k k' Hne). exact Hk.
  - rewrite checkPlayer_ID. exact Hskip.
Qed.

(** Where the local bullets are the local player's own, as [Shoot] makes
    them, the owner of a bullet is never damaged by the pass. *)
Lemma own_bullet_spares_owner
    (order : list string) (g : Game.t) (k : string) (p : Player.t) (b : Bullet.t) :
  Param.owned (Game.player g) ->
  b ∈ Player.Bullets (Game.player g) ->
  Game.players g !! k = Some p ->
  Player.ID p = Bullet.OwnerID b ->
  Game.players (Game.checkBulletCollisions order g) !! k = Some p.
Proof.
  intros Hown Hb Hk Hid. apply checkBulletCollisions_keeps_skipped; [exact Hk |].
  right. rewrite Hid. unfold Param.owned in Hown. rewrite Forall_forall in Hown.
  apply Hown. exact Hb.
Qed.

(** C4 (amended). A player whose identity is the local player's, the owner
    of the bullets, is never damaged; and a target whose health is 0 or
    less when the loop reaches it is skipped as well: its turn changes
    nothing (no test, no bullet spent, no event), and its record is the
    same after the whole pass, in whatever order the map is ranged. *)
Theorem checkBulletCollisions_skips
    (order : list string) (g : Game.t) (k : string) (p : Player.t) :
  Game.players g !! k = Some p ->
  (Player.Health p <= 0)%Z \/ Player.ID p = Player.ID (Game.player g) ->
  Game.checkPlayer g k = g
  /\ Game.players (Game.checkBulletCollisions order g) !! k = Some p.
Proof.
  intros Hk Hskip. split.
  - exact (checkPlayer_skip g k p Hk Hskip).
  - exact (checkBulletCollisions_keeps_skipped order g k p Hk Hskip).
Qed.

(** Inside the turn of one target the health is not looked at again: a
    target at 0 handed to the scan is still tested, the hit is clamped. *)
Lemma scanBullets_tests_downed :
  Game.scanBullets Sample.downed [Sample.shot] =
    (Sample.downed, [], [EventPlayerHit (PlayerHit.mk "222" 20)]).
Proof. reflexivity. Qed.

End SkipFacts.

Lemma checkBulletCollisions_skips_witness :
  Game.players (Sample.duel Sample.downed) !! "222"%string = Some Sample.downed
  /\ ((Player.Health Sample.downed <= 0)%Z
      \/ Player.ID Sample.downed = Player.ID (Game.player (Sample.duel Sample.downed)))
  /\ @Game.checkPlayer Extern0 (Sample.duel Sample.downed) "222" = Sample.duel Sample.downed
  /\ Game.players (@Game.checkBulletCollisions Extern0 ["222"%string] (Sample.duel Sample.downed))
       !! "222"%string = Some Sample.downed.
Proof.
  assert (Hk : Game.players (Sample.duel Sample.downed) !! "222"%string = Some Sample.downed)
    by reflexivity.
  assert (Hskip : (Player.Health Sample.downed <= 0)%Z
      \/ Player.ID Sample.downed = Player.ID (Game.player (Sample.duel Sample.downed)))
    by (left; vm_compute; discriminate).
  split; [exact Hk |]. split; [exact Hskip |].
  exact (@checkBulletCollisions_skips Extern0 ["222"%string] _ _ _ Hk Hskip).
Defined.

(** C4, as stated, fails on a downed target: the bullet of the sample
    crosses the hit box of a target at health 0, and the pass leaves the
    bullet in the owner's collection and sends nothing, where a tested
    target would have spent the bullet on a no-op hit. *)
Lemma downed_target_is_filtered :
  Player.Health Sample.downed = 0%Z
  /\ @Game.firstContact Extern0 Sample.downed Sample.shot = Some Sample.leftEdge
  /\ Player.Bullets (Game.player
       (@Game.checkBulletCollisions Extern0 ["222"%string] (Sample.duel Sample.downed)))
     = [Sample.shot]
  /\ Game.conn (@Game.checkBulletCollisions Extern0 ["222"%string] (Sample.duel Sample.downed))
     = [].
Proof. repeat split; reflexivity. Qed.

(** ** The merge of inbound events *)

Section MergeFacts.
Context `{Extern}.
Local Open Scope Z_scope.

Lemma wrap_is_int (z : Z) : Int.is_int z -> Int.wrap z = z.
Proof.
  unfold Int.is_int, Int.min_int, Int.max_int, Int.wrap. intros Hz.
  rewrite Z.mod_small by lia. lia.
Qed.

(** The health a remote victim is left with: the wrapped difference,
    raised to 0 when negative. *)
Lemma mergePlayerHit_remote (hit : PlayerHit.t) (g : Game.t) (victim : Player.t) :
  Game.players g !! PlayerHit.VictimID hit = Some victim ->
  Game.players (Game.mergePlayerHit hit g) !! PlayerHit.VictimID hit =
    Some (Player.setHealth
            (Z.max 0 (Int.sub (Player.Health victim) (PlayerHit.Damage hit))) victim).
Proof.
  intros Hv. unfold Game.mergePlayerHit. rewrite Hv.
  assert (Hmax : forall h, (if h <? 0 then 0 else h) = Z.max 0 h)
    by (intros h; destruct (Z.ltb_spec h 0); lia).
  rewrite Hmax.
  destruct (String.eqb _ _); cbn; apply lookup_insert_eq.
Qed.

Lemma mergePlayerHit_remote_nonneg (hit : PlayerHit.t) (g : Game.t) (victim : Player.t) :
  Game.players g !! PlayerHit.VictimID hit = Some victim ->
  exists victim',
    Game.players (Game.mergePlayerHit hit g) !! PlayerHit.VictimID hit = Some victim'
    /\ 0 <= Player.Health victim'.
Proof.
  intros Hv. eexists. split; [apply (mergePlayerHit_remote _ _ _ Hv) |]. cbn. lia.
Qed.

(** The local player's branch has the subtraction and no clamp. *)
Lemma mergePlayerHit_local (hit : PlayerHit.t) (g : Game.t) :
  PlayerHit.VictimID hit = Player.ID (Game.player g) ->
  Player.Health (Game.player (Game.mergePlayerHit hit g)) =
    Int.sub (Player.Health (Game.player g)) (PlayerHit.Damage hit).
Proof.
  intros Hid. unfold Game.mergePlayerHit.
  destruct (Game.players g !! PlayerHit.VictimID hit) as [q|]; cbn;
    apply String.eqb_eq in Hid; rewrite Hid; reflexivity.
Qed.

Lemma mergePlayerHit_ID (hit : PlayerHit.t) (g : Game.t) :
  Player.ID (Game.player (Game.mergePlayerHit hit g)) = Player.ID (Game.player g).
Proof.
  unfold Game.mergePlayerHit.
  destruct (Game.players g !! PlayerHit.VictimID hit) as [q|]; cbn;
    destruct (String.eqb _ _); reflexivity.
Qed.

(** C2 (code bug). Six PlayerHit events of damage 20 that name the local
    player, merged into the game [main] builds: the local health goes
    100, 80, 60, 40, 20, 0 and then -20.  The branch for a remote victim
    clamps at 0 ([mergePlayerHit_remote_nonneg]); this one does not. *)
Theorem local_victim_health_goes_negative :
  Player.Health (Game.player (Game.newGame "p1")) = 100
  /\ Player.Health (Game.player
       (Game.listenForUpdates (replicate 6 (FramePlayerHit (PlayerHit.mk "p1" 20)))
          (Game.newGame "p1"))) = -20.
Proof. split; vm_compute; reflexivity. Qed.

Lemma mergePlayerUpdate_idempotent (update : PlayerUpdate.t) (g : Game.t) :
  Game.mergePlayerUpdate update (Game.mergePlayerUpdate update g) =
  Game.mergePlayerUpdate update g.
Proof.
  unfold Game.mergePlayerUpdate at 2.
  destruct (String.eqb (PlayerUpdate.ID update) (Player.ID (Game.player g))) eqn:E.
  - unfold Game.mergePlayerUpdate. rewrite E. reflexivity.
  - unfold Game.mergePlayerUpdate. cbn [Game.player Game.setPlayers Game.players].
    rewrite E, lookup_insert_eq. cbn.
    unfold Game.setPlayers. cbn. rewrite insert_insert_eq. reflexivity.
Qed.

(** The upsert replaces position, angle, health and bullets by the
    payload's, and keeps what the payload does not carry. *)
Lemma mergePlayerUpdate_fields (update : PlayerUpdate.t) (g : Game.t) :
  PlayerUpdate.ID update <> Player.ID (Game.player g) ->
  exists p,
    Game.players (Game.mergePlayerUpdate update g) !! PlayerUpdate.ID update = Some p
    /\ Player.X p = PlayerUpdate.X update
    /\ Player.Y p = PlayerUpdate.Y update
    /\ Player.Angle p = PlayerUpdate.Angle update
    /\ Player.Health p = PlayerUpdate.Health update
    /\ Player.Bullets p = PlayerUpdate.Bullets update.
Proof.
  intros Hne. unfold Game.mergePlayerUpdate.
  destruct (String.eqb_spec (PlayerUpdate.ID update) (Player.ID (Game.player g)));
    [congruence |].
  eexists. split; [cbn; apply lookup_insert_eq |]. cbn. repeat split.
Qed.

Lemma mergePlayerUpdate_self (update : PlayerUpdate.t) (g : Game.t) :
  PlayerUpdate.ID update = Player.ID (Game.player g) ->
  Game.mergePlayerUpdate update g = g.
Proof.
  intros Hid. unfold Game.mergePlayerUpdate.
  apply String.eqb_eq in Hid. rewrite Hid. reflexivity.
Qed.

(** One merge of a player_hit takes the damage off the health the state
    holds for the victim, be it a remote player or the local one, as long
    as the difference is not negative. *)
Lemma healthOf_mergePlayerHit (hit : PlayerHit.t) (g : Game.t) (h : Z) :
  Inv.healthOf g (PlayerHit.VictimID hit) = Some h ->
  Int.is_int h ->
  0 <= PlayerHit.Damage hit <= h ->
  Inv.healthOf (Game.mergePlayerHit hit g) (PlayerHit.VictimID hit)
  = Some (h - PlayerHit.Damage hit).
Proof.
  unfold Inv.healthOf. rewrite mergePlayerHit_ID. intros Hh Hint Hd.
  assert (Hw : Int.sub h (PlayerHit.Damage hit) = h - PlayerHit.Damage hit).
  { unfold Int.sub. apply wrap_is_int.
    unfold Int.is_int, Int.min_int, Int.max_int in *. lia. }
  destruct (String.eqb (PlayerHit.VictimID hit) (Player.ID (Game.player g))) eqn:E.
  - injection Hh as <-. apply String.eqb_eq in E.
    rewrite (mergePlayerHit_local _ _ E), Hw. reflexivity.
  - destruct (Game.players g !! PlayerHit.VictimID hit) as [victim|] eqn:Hv;
      cbn in Hh; [| discriminate Hh].
    injection Hh as <-. rewrite (mergePlayerHit_remote _ _ _ Hv). cbn.
    rewrite Hw. f_equal. lia.
Qed.

(** C6. Merging one player_update payload twice gives the state that
    merging it once gives, from every state: the payload of another
    identity leaves under that identity an entry whose position, angle,
    health and bullets are the payload's, whatever they were before, and a
    payload of the local identity is ignored.  Merging one player_hit
    payload twice, for a victim (a remote player of the map or the local
    player) whose health exceeds twice the damage carried (a damage of 0 or
    more), takes the damage off twice: the health h the state holds for the
    victim becomes h - d after one merge and h - 2d after two, so with d
    not 0 two merges are not one. *)
Theorem merge_update_idempotent_hit_not
    (update : PlayerUpdate.t) (hit : PlayerHit.t) (g : Game.t) (h : Z) :
  Inv.healthOf g (PlayerHit.VictimID hit) = Some h ->
  Int.is_int h ->
  0 <= PlayerHit.Damage hit ->
  2 * PlayerHit.Damage hit < h ->
  (forall g0,
     Game.merge (FramePlayerUpdate update) (Game.merge (FramePlayerUpdate update) g0)
     = Game.merge (FramePlayerUpdate update) g0
     /\ (PlayerUpdate.ID update <> Player.ID (Game.player g0) ->
         exists p,
           Game.players (Game.merge (FramePlayerUpdate update) g0) !! PlayerUpdate.ID update
           = Some p
           /\ Player.X p = PlayerUpdate.X update
           /\ Player.Y p = PlayerUpdate.Y update
           /\ Player.Angle p = PlayerUpdate.Angle update
           /\ Player.Health p = PlayerUpdate.Health update
           /\ Player.Bullets p = PlayerUpdate.Bullets update)
     /\ (PlayerUpdate.ID update = Player.ID (Game.player g0) ->
         Game.merge (FramePlayerUpdate update) g0 = g0))
  /\ Inv.healthOf (Game.merge (FramePlayerHit hit) g) (PlayerHit.VictimID hit)
     = Some (h - PlayerHit.Damage hit)
  /\ Inv.healthOf (Game.merge (FramePlayerHit hit) (Game.merge (FramePlayerHit hit) g))
       (PlayerHit.VictimID hit)
     = Some (h - 2 * PlayerHit.Damage hit)
  /\ (PlayerHit.Damage hit <> 0 ->
      Game.merge (FramePlayerHit hit) (Game.merge (FramePlayerHit hit) g)
      <> Game.merge (FramePlayerHit hit) g).
Proof.
  intros Hh Hint Hd Hlt. cbn [Game.merge].
  assert (H1 : Inv.healthOf (Game.mergePlayerHit hit g) (PlayerHit.VictimID hit)
               = Some (h - PlayerHit.Damage hit))
    by (apply healthOf_mergePlayerHit; [exact Hh | exact Hint | lia]).
  assert (H2 : Inv.healthOf (Game.mergePlayerHit hit (Game.mergePlayerHit hit g))
                 (PlayerHit.VictimID hit)
               = Some (h - 2 * PlayerHit.Damage hit)).
  { rewrite (healthOf_mergePlayerHit hit _ (h - PlayerHit.Damage hit) H1).
    - f_equal. lia.
    - unfold Int.is_int, Int.min_int, Int.max_int in *. lia.
    - lia. }
  split; [| split; [exact H1 | split; [exact H2 |]]].
  - intros g0. split; [apply mergePlayerUpdate_idempotent |].
    split; [apply mergePlayerUpdate_fields | apply mergePlayerUpdate_self].
  - intros Hne E. rewrite E, H1 in H2. injection H2 as H2. lia.
Qed.

End MergeFacts.

Lemma merge_update_idempotent_hit_not_witness :
  Inv.healthOf (@Game.newGame Extern0 "p1") "p1" = Some 100%Z
  /\ Inv.healthOf
       (@Game.merge Extern0 (FramePlayerHit (PlayerHit.mk "p1" 20))
          (@Game.merge Extern0 (FramePlayerHit (PlayerHit.mk "p1" 20))
             (@Game.newGame Extern0 "p1"))) "p1" = Some 60%Z
  /\ Inv.healthOf (Sample.duel Sample.target) "222" = Some 100%Z
  /\ Inv.healthOf
       (@Game.merge Extern0 (FramePlayerHit (PlayerHit.mk "222" 20))
          (@Game.merge Extern0 (FramePlayerHit (PlayerHit.mk "222" 20))
             (Sample.duel Sample.target))) "222" = Some 60%Z
  /\ exists p,
       Game.players
         (@Game.merge Extern0
            (FramePlayerUpdate (PlayerUpdate.mk "222" 10 20 0 80 [Sample.shot]))
            (Sample.duel Sample.target)) !! "222"%string = Some p
       /\ Player.X p = 10%float /\ Player.Health p = 80%Z
       /\ Player.Bullets p = [Sample.shot].
Proof.
  assert (Hl : Inv.healthOf (@Game.newGame Extern0 "p1")
                 (PlayerHit.VictimID (PlayerHit.mk "p1" 20)) = Some 100%Z) by reflexivity.
  assert (Hr : Inv.healthOf (Sample.duel Sample.target)
                 (PlayerHit.VictimID (PlayerHit.mk "222" 20)) = Some 100%Z) by reflexivity.
  assert (Hint : Int.is_int 100) by (vm_compute; split; discriminate).
  assert (Hd : (0 <= PlayerHit.Damage (PlayerHit.mk "p1" 20))%Z) by (vm_compute; discriminate).
  assert (Hd' : (0 <= PlayerHit.Damage (PlayerHit.mk "222" 20))%Z)
    by (vm_compute; discriminate).
  assert (Hlt : (2 * PlayerHit.Damage (PlayerHit.mk "p1" 20) < 100)%Z)
    by (vm_compute; reflexivity).
  assert (Hlt' : (2 * PlayerHit.Damage (PlayerHit.mk "222" 20) < 100)%Z)
    by (vm_compute; reflexivity).
  split; [exact Hl |].
  split; [exact (proj1 (proj2 (proj2
    (@merge_update_idempotent_hit_not Extern0
       (PlayerUpdate.mk "222" 10 20 0 80 [Sample.shot]) (PlayerHit.mk "p1" 20)
       (@Game.newGame Extern0 "p1") 100%Z Hl Hint Hd Hlt)))) |].
  split; [exact Hr |].
  destruct (@merge_update_idempotent_hit_not Extern0
              (PlayerUpdate.mk "222" 10 20 0 80 [Sample.shot]) (PlayerHit.mk "222" 20)
              (Sample.duel Sample.target) 100%Z Hr Hint Hd' Hlt')
    as (Hu & _ & H2 & _).
  split; [exact H2 |].
  destruct (Hu (Sample.duel Sample.target)) as (_ & Hf & _).
  destruct (Hf ltac:(discriminate)) as (p & Hp & HX & _ & _ & HH & HB).
  exists p. split; [exact Hp |]. split; [exact HX |]. split; [exact HH | exact HB].
Defined.

(** ** castRays *)

Section CastRaysFacts.
Context `{Extern}.
Local Open Scope float_scope.

Lemma foldM_total {A B : Type} (f : B -> A -> option B) (l : list A) :
  (forall b a, a ∈ l -> is_Some (f b a)) ->
  forall b, is_Some (foldM f b l).
Proof.
  induction l as [|a l IH]; intros Hf b; cbn [foldM]; [eauto |].
  destruct (Hf b a ltac:(left)) as [b' ->]. cbn.
  apply IH. intros b0 a0 Ha0. apply Hf. right. exact Ha0.
Qed.

(** A probe adds one segment or none, and never faults: the index read
    from [points] is below its length. *)
Lemma castProbe_total (cx cy : float64) (objects : list game.Object)
    (rayLength angle : float64) (rays : list game.Line) (offset : float64) :
  Game.castProbe cx cy objects rayLength angle rays offset = Some rays
  \/ exists p, Game.castProbe cx cy objects rayLength angle rays offset
               = Some (rays ++ [game.mkLine cx cy p.1 p.2]).
Proof.
  unfold Game.castProbe.
  set (points := Game.hitPoints _ objects).
  set (minI := Game.closest cx cy points 0 (math.Inf 1) 0).
  destruct (Nat.ltb_spec minI (length points)) as [Hlt | Hge]; [| left; reflexivity].
  destruct (lookup_lt_is_Some_2 points minI Hlt) as [p Hp].
  right. exists p. rewrite Hp. reflexivity.
Qed.

Lemma castProbe_miss (cx cy : float64) (objects : list game.Object)
    (rayLength angle : float64) (rays : list game.Line) (offset : float64) :
  Game.hitPoints (game.NewRay cx cy rayLength (angle + offset)) objects = [] ->
  Game.castProbe cx cy objects rayLength angle rays offset = Some rays.
Proof. intros Hmiss. unfold Game.castProbe. rewrite Hmiss. reflexivity. Qed.

Lemma Points_total (o : game.Object) :
  game.Walls o <> [] -> is_Some (game.Points o).
Proof.
  destruct o as [[|w ws]]; cbn [game.Walls]; [congruence | intros _].
  rewrite Points_nonempty. eauto.
Qed.

(** C8 (amended). For every viewpoint and every list of obstacle objects
    that each have at least one segment (the list may be empty, and need
    not enclose the viewpoint), [castRays] returns a result: it never
    indexes out of bounds.  For every list of objects whatever, a probe
    whose ray meets no segment leaves the collected rays as they were, and
    every probe returns, adding one segment or none. *)
Theorem castRays_total_and_drops_misses (cx cy : float64) (objects : list game.Object) :
  Forall (fun o => game.Walls o <> []) objects ->
  is_Some (Game.castRays cx cy objects)
  /\ (forall objs rayLength angle rays offset,
        Game.hitPoints (game.NewRay cx cy rayLength (angle + offset)) objs = [] ->
        Game.castProbe cx cy objs rayLength angle rays offset = Some rays)
  /\ (forall objs rayLength angle rays offset,
        Game.castProbe cx cy objs rayLength angle rays offset = Some rays
        \/ exists p, Game.castProbe cx cy objs rayLength angle rays offset
                     = Some (rays ++ [game.mkLine cx cy p.1 p.2])).
Proof.
  intros Hwalls.
  split; [| split; [intros; apply castProbe_miss; assumption | intros; apply castProbe_total]].
  unfold Game.castRays.
  assert (Hu : is_Some (Game.castRaysUnsorted cx cy objects)).
  { unfold Game.castRaysUnsorted. apply foldM_total. intros rays obj Hobj.
    rewrite Forall_forall in Hwalls.
    destruct (Points_total obj (Hwalls obj Hobj)) as [points ->]. cbn [mbind option_bind].
    apply foldM_total. intros rays1 p _.
    apply foldM_total. intros rays2 offset _.
    destruct (castProbe_total cx cy objects
                (math.Hypot (F64.of_int Game.ScreenWidth) (F64.of_int Game.ScreenHeight))
                (game.Angle (game.mkLine cx cy p.1 p.2)) rays2 offset) as [-> | [q ->]]; eauto. }
  destruct Hu as [rays ->]. cbn. eauto.
Qed.

End CastRaysFacts.

Lemma castRays_total_and_drops_misses_witness :
  Forall (fun o => game.Walls o <> []) (Game.Objects (@Game.newGame Extern0 "p1"))
  /\ is_Some (@Game.castRays Extern0 800 450 (Game.Objects (@Game.newGame Extern0 "p1"))).
Proof.
  assert (Hwalls : Forall (fun o => game.Walls o <> [])
                     (Game.Objects (@Game.newGame Extern0 "p1")))
    by (repeat constructor; discriminate).
  split; [exact Hwalls |].
  exact (proj1 (@castRays_total_and_drops_misses Extern0 800 450 _ Hwalls)).
Defined.

(** C8, as stated, fails on an object with no wall: [Points] reads
    [o.Walls[0]] and the call faults. *)
Lemma castRays_faults_on_hollow_object :
  @Game.castRays Extern0 0 0 [Sample.hollow] = None.
Proof. reflexivity. Qed.

(** * Further properties *)

(** ** The order of binary64 *)

Section OrderFacts.
Local Open Scope float_scope.

Lemma compare_cont_Eq (p q : positive) : PosDef.Pos.compare_cont Eq p q = (p ?= q)%positive.
Proof. reflexivity. Qed.

Lemma SFcompare_Lt_trans (a b c : spec_float) :
  SFcompare a b = Some Lt -> SFcompare b c = Some Lt -> SFcompare a c = Some Lt.
Proof.
  destruct a as [sa|sa| |sa ma ea], b as [sb|sb| |sb mb eb], c as [sc|sc| |sc mc ec];
    cbn; try discriminate; try reflexivity;
    try (destruct sa; discriminate); try (destruct sb; discriminate);
    try (destruct sc; discriminate);
    try (destruct sa, sb; discriminate); try (destruct sb, sc; discriminate);
    try (destruct sa, sc; (discriminate || reflexivity));
    try (destruct sa, sb; try discriminate; intros; destruct sc; (discriminate || reflexivity)).
  pose proof (Pos.compare_spec ma mb) as Hab.
  pose proof (Pos.compare_spec mb mc) as Hbc.
  pose proof (Pos.compare_spec ma mc) as Hac.
  rewrite <- !compare_cont_Eq in Hab, Hbc, Hac.
  destruct sa, sb, sc; try discriminate; try reflexivity;
    destruct (Z.compare_spec ea eb), (Z.compare_spec eb ec), (Z.compare_spec ea ec);
    try discriminate; try reflexivity; try lia;
    destruct Hab, Hbc, Hac; cbn; try discriminate; try reflexivity; try lia.
Qed.

Lemma ltb_trans (x y z : float64) :
  (x <? y) = true -> (y <? z) = true -> (x <? z) = true.
Proof.
  rewrite !FloatAxioms.ltb_spec. unfold SFltb.
  destruct (SFcompare (Prim2SF x) (Prim2SF y)) as [[]|] eqn:E1; try discriminate.
  destruct (SFcompare (Prim2SF y) (Prim2SF z)) as [[]|] eqn:E2; try discriminate.
  rewrite (SFcompare_Lt_trans _ _ _ E1 E2). reflexivity.
Qed.

(** Whatever is below something is below +Inf. *)
Lemma ltb_below_infinity (x y : float64) :
  (x <? y) = true -> (x <? infinity) = true.
Proof.
  rewrite !FloatAxioms.ltb_spec. unfold SFltb.
  change (Prim2SF infinity) with (S754_infinity false).
  destruct (Prim2SF x) as [s|s| |s m e], (Prim2SF y) as [s'|s'| |s' m' e']; cbn;
    try discriminate; try reflexivity; destruct s; try reflexivity; destruct s'; discriminate.
Qed.

Lemma ltb_irrefl_eq (x y : float64) :
  (x <? y) = true -> (x =? y) = false /\ (y <? x) = false.
Proof.
  rewrite !FloatAxioms.ltb_spec, FloatAxioms.eqb_spec. unfold SFltb, SFeqb.
  rewrite (SFcompare_antisym (Prim2SF x) (Prim2SF y)).
  destruct (SFcompare (Prim2SF x) (Prim2SF y)) as [[]|]; try discriminate. cbn. auto.
Qed.

End OrderFacts.

(** ** Zeros *)

Section ZeroFacts.
Local Open Scope float_scope.

Lemma SFsub_diag (a : spec_float) :
  SF.finite a = true -> SF.zero (SFsub prec emax a a) = true.
Proof.
  destruct a as [s|s| |s m e]; cbn; try discriminate; intros _.
  - destruct s; reflexivity.
  - set (v := cond_Zopp s _).
    replace (IntDef.Z.sub v v) with 0%Z by (change (IntDef.Z.sub v v) with (v - v)%Z; lia).
    reflexivity.
Qed.

Lemma SFmul_zero_l (a b : spec_float) :
  SF.zero a = true -> SF.finite b = true -> SF.zero (SFmul prec emax a b) = true.
Proof. destruct a, b; cbn; try discriminate; reflexivity. Qed.

Lemma SFmul_zero_r (a b : spec_float) :
  SF.finite a = true -> SF.zero b = true -> SF.zero (SFmul prec emax a b) = true.
Proof. destruct a, b; cbn; try discriminate; reflexivity. Qed.

Lemma SFsub_zero (a b : spec_float) :
  SF.zero a = true -> SF.zero b = true -> SF.zero (SFsub prec emax a b) = true.
Proof. destruct a as [[]| | |], b as [[]| | |]; cbn; try discriminate; reflexivity. Qed.

Lemma SFadd_zero (a b : spec_float) :
  SF.zero a = true -> SF.zero b = true -> SF.zero (SFadd prec emax a b) = true.
Proof. destruct a as [[]| | |], b as [[]| | |]; cbn; try discriminate; reflexivity. Qed.

Lemma SF_zero_finite (a : spec_float) : SF.zero a = true -> SF.finite a = true.
Proof. destruct a; cbn; try discriminate; reflexivity. Qed.

Lemma SF_zero_eqb (x : float64) : SF.zero (Prim2SF x) = true -> (x =? 0) = true.
Proof.
  rewrite FloatAxioms.eqb_spec. change (Prim2SF 0) with (S754_zero false).
  destruct (Prim2SF x); cbn; try discriminate; reflexivity.
Qed.

Lemma SF_zero_ltb (x y : float64) :
  SF.zero (Prim2SF x) = true -> (x <? y) = (0 <? y).
Proof.
  rewrite !FloatAxioms.ltb_spec. change (Prim2SF 0) with (S754_zero false).
  destruct (Prim2SF x); cbn; try discriminate; reflexivity.
Qed.

(** What lies strictly between two values is finite. *)
Lemma between_finite (a x b : float64) :
  (a <? x) = true -> (x <? b) = true -> SF.finite (Prim2SF x) = true.
Proof.
  rewrite !FloatAxioms.ltb_spec. unfold SFltb.
  destruct (Prim2SF x) as [s|s| |s m e]; cbn; try reflexivity.
  - destruct s.
    + destruct (Prim2SF a) as [[]|[]| |[]]; cbn; discriminate.
    + intros _. destruct (Prim2SF b) as [[]|[]| |[]]; cbn; discriminate.
  - destruct (Prim2SF a); discriminate.
Qed.

End ZeroFacts.

(** ** Degenerate segments *)

Section DegenerateFacts.
Import game.
Local Open Scope float_scope.

Lemma sub_diag_zero (x : float64) :
  is_finite x = true -> SF.zero (Prim2SF (x - x)) = true.
Proof.
  intros Hx. rewrite FloatAxioms.sub_spec. apply SFsub_diag, is_finite_SF_finite, Hx.
Qed.

Lemma denom_zero_of_zero_factors (a b c d : float64) :
  (SF.zero (Prim2SF a) = true /\ SF.zero (Prim2SF b) = true
   /\ is_finite c = true /\ is_finite d = true)
  \/ (is_finite a = true /\ is_finite b = true
      /\ SF.zero (Prim2SF c) = true /\ SF.zero (Prim2SF d) = true) ->
  (a * d - b * c =? 0) = true.
Proof.
  intros H. apply SF_zero_eqb. rewrite FloatAxioms.sub_spec, !FloatAxioms.mul_spec.
  destruct H as [(Ha & Hb & Hc & Hd) | (Ha & Hb & Hc & Hd)]; apply SFsub_zero.
  - apply SFmul_zero_l; [exact Ha | apply is_finite_SF_finite, Hd].
  - apply SFmul_zero_l; [exact Hb | apply is_finite_SF_finite, Hc].
  - apply SFmul_zero_r; [apply is_finite_SF_finite, Ha | exact Hd].
  - apply SFmul_zero_r; [apply is_finite_SF_finite, Hb | exact Hc].
Qed.

(** X1. When one of the two segments has length zero (at a finite point)
    and the coordinate differences of both are finite, [Intersection]
    finds the denominator equal to zero and returns no intersection. *)
Theorem Intersection_zero_length (l1 l2 : Line) :
  Inv.degenerate l1 \/ Inv.degenerate l2 ->
  Inv.finiteSpan l1 -> Inv.finiteSpan l2 ->
  Intersection l1 l2 = (0, 0, false).
Proof.
  intros Hdeg [Hx1 Hy1] [Hx2 Hy2]. rewrite Intersection_unfold.
  assert (Hz : (Param.denom l1 l2 =? 0) = true); [| rewrite Hz; reflexivity].
  unfold Param.denom. apply denom_zero_of_zero_factors.
  destruct Hdeg as [(Ex & Ey & Fx & Fy) | (Ex & Ey & Fx & Fy)]; [left | right];
    rewrite ?Ex, ?Ey in *; repeat split; try assumption; apply sub_diag_zero; assumption.
Qed.

End DegenerateFacts.

Lemma Intersection_zero_length_witness :
  (Inv.degenerate (game.mkLine 3 4 3 4) \/ Inv.degenerate Sample.falling)
  /\ Inv.finiteSpan (game.mkLine 3 4 3 4)
  /\ Inv.finiteSpan Sample.falling
  /\ game.Intersection (game.mkLine 3 4 3 4) Sample.falling = (0%float, 0%float, false).
Proof.
  assert (Hd : Inv.degenerate (game.mkLine 3 4 3 4) \/ Inv.degenerate Sample.falling)
    by (left; repeat split; reflexivity).
  assert (H1 : Inv.finiteSpan (game.mkLine 3 4 3 4)) by (split; reflexivity).
  assert (H2 : Inv.finiteSpan Sample.falling) by (split; reflexivity).
  split; [exact Hd |]. split; [exact H1 |]. split; [exact H2 |].
  exact (Intersection_zero_length _ _ Hd H1 H2).
Defined.

(** ** Circle against rectangle *)

Section CircleFacts.
Local Open Scope float_scope.

Lemma ltb_numbers (x y : float64) :
  (x <? y) = true ->
  (x =? x) = true /\ (y =? y) = true
  /\ (x =? infinity) = false /\ (y =? neg_infinity) = false.
Proof.
  rewrite FloatAxioms.ltb_spec, !FloatAxioms.eqb_spec. unfold SFltb, SFeqb.
  change (Prim2SF infinity) with (S754_infinity false).
  change (Prim2SF neg_infinity) with (S754_infinity true).
  intros H.
  assert (Hx : Prim2SF x <> S754_nan) by (intros E; rewrite E in H; discriminate H).
  assert (Hy : Prim2SF y <> S754_nan)
    by (intros E; rewrite E in H; destruct (Prim2SF x); discriminate H).
  rewrite (SFcompare_refl _ Hx), (SFcompare_refl _ Hy). repeat split.
  - destruct (Prim2SF x) as [[]|[]| |[]], (Prim2SF y) as [[]|[]| |[]];
      cbn in *; congruence.
  - destruct (Prim2SF x) as [[]|[]| |[]], (Prim2SF y) as [[]|[]| |[]];
      cbn in *; congruence.
Qed.

(** Clamping a value that lies strictly inside the range returns it. *)
Lemma clamp_inside (lo x hi : float64) :
  (lo <? x) = true -> (x <? hi) = true ->
  math.Max lo (math.Min x hi) = x.
Proof.
  intros Hlo Hhi.
  destruct (ltb_numbers _ _ Hlo) as (Nlo & Nx & Ilo & Ix).
  destruct (ltb_numbers _ _ Hhi) as (_ & Nhi & Ix' & Ihi).
  destruct (ltb_irrefl_eq _ _ Hlo) as [Elo Glo].
  destruct (ltb_irrefl_eq _ _ Hhi) as [Ehi _].
  assert (Hmin : math.Min x hi = x).
  { unfold math.Min, math.IsInf, math.IsNaN, F64.neb. cbn [Z.leb Z.compare andb orb].
    rewrite Ix, Ihi, Nx, Nhi, Ehi, Hhi. cbn. rewrite andb_false_r. reflexivity. }
  rewrite Hmin.
  unfold math.Max, math.IsInf, math.IsNaN, F64.neb, F64.gtb. cbn [Z.leb Z.compare andb orb].
  rewrite Ilo, Ix', Nlo, Nx, Elo, Glo. cbn. rewrite andb_false_r. reflexivity.
Qed.

(** X2. A circle whose centre lies strictly inside an obstacle's rectangle
    collides with it, whenever the square of the radius is positive. *)
Theorem circleRectCollision_centre_inside (cx cy radius : float64) (rect : Obstacle.t) :
  (Obstacle.X rect <? cx) = true ->
  (cx <? Obstacle.X rect + Obstacle.Width rect) = true ->
  (Obstacle.Y rect <? cy) = true ->
  (cy <? Obstacle.Y rect + Obstacle.Height rect) = true ->
  (0 <? radius * radius) = true ->
  Game.circleRectCollision cx cy radius rect = true.
Proof.
  intros Hx1 Hx2 Hy1 Hy2 Hr. unfold Game.circleRectCollision.
  rewrite (clamp_inside _ _ _ Hx1 Hx2), (clamp_inside _ _ _ Hy1 Hy2).
  pose proof (between_finite _ _ _ Hx1 Hx2) as Fx.
  pose proof (between_finite _ _ _ Hy1 Hy2) as Fy.
  assert (Zx : SF.zero (Prim2SF (cx - cx)) = true)
    by (rewrite FloatAxioms.sub_spec; apply SFsub_diag, Fx).
  assert (Zy : SF.zero (Prim2SF (cy - cy)) = true)
    by (rewrite FloatAxioms.sub_spec; apply SFsub_diag, Fy).
  rewrite SF_zero_ltb; [exact Hr |].
  rewrite FloatAxioms.add_spec, !FloatAxioms.mul_spec.
  apply SFadd_zero; apply SFmul_zero_l; try assumption; apply SF_zero_finite; assumption.
Qed.

End CircleFacts.

Lemma circleRectCollision_centre_inside_witness :
  Game.circleRectCollision 250 200 10 (Obstacle.mk 200 150 100 200) = true.
Proof.
  apply (circleRectCollision_centre_inside 250 200 10 (Obstacle.mk 200 150 100 200));
    reflexivity.
Defined.

(** ** The nearest hit of a probe *)

Section ClosestFacts.
Local Open Scope float_scope.

(** The loop of [closest] from a state in which no point seen so far is
    strictly nearer than [min]: the same holds at the end for all points,
    with the final [min] being the start value or the distance of the
    chosen point. *)
Lemma closest_spec (cx cy : float64) (points : list (float64 * float64)) :
  forall (i : nat) (min : float64) (minI : nat),
  let m := Game.closest cx cy points i min minI in
  (m = minI /\ Forall (fun p => (Inv.d2 cx cy p <? min) = false) points)
  \/ (exists q, points !! (m - i)%nat = Some q /\ (i <= m)%nat
        /\ (Inv.d2 cx cy q <? min) = true
        /\ Forall (fun p => (Inv.d2 cx cy p <? Inv.d2 cx cy q) = false) points).
Proof.
  induction points as [|p points IH]; intros i min minI; cbn zeta.
  - left. split; [reflexivity | constructor].
  - cbn [Game.closest].
    change ((cx - p.1) * (cx - p.1) + (cy - p.2) * (cy - p.2)) with (Inv.d2 cx cy p).
    destruct (Inv.d2 cx cy p <? min) eqn:Hlt.
    + right. destruct (IH (S i) (Inv.d2 cx cy p) i) as [[Hm Hall] | (q & Hq & Hle & Hqlt & Hall)].
      * exists p. rewrite Hm, Nat.sub_diag. repeat split; try reflexivity; try assumption.
        constructor; [| exact Hall].
        destruct (Inv.d2 cx cy p <? Inv.d2 cx cy p) eqn:E; [| reflexivity].
        destruct (ltb_irrefl_eq _ _ E) as [_ E']. congruence.
      * exists q.
        replace (Game.closest cx cy points (S i) (Inv.d2 cx cy p) i - i)%nat
          with (S (Game.closest cx cy points (S i) (Inv.d2 cx cy p) i - S i)) by lia.
        repeat split; try assumption; [lia | exact (ltb_trans _ _ _ Hqlt Hlt) |].
        constructor; [| exact Hall].
        destruct (ltb_irrefl_eq _ _ Hqlt) as [_ E']. exact E'.
    + destruct (IH (S i) min minI) as [[Hm Hall] | (q & Hq & Hle & Hqlt & Hall)].
      * left. split; [exact Hm | constructor; assumption].
      * right. exists q.
        replace (Game.closest cx cy points (S i) min minI - i)%nat
          with (S (Game.closest cx cy points (S i) min minI - S i)) by lia.
        repeat split; try assumption; [lia |].
        constructor; [| exact Hall].
        destruct (Inv.d2 cx cy p <? Inv.d2 cx cy q) eqn:E; [| reflexivity].
        rewrite (ltb_trans _ _ _ E Hqlt) in Hlt. discriminate Hlt.
Qed.

(** X3. On a probe with at least one hit, the index [castRays] keeps is
    within the slice, and no hit is strictly nearer to the viewpoint than
    the one kept. *)
Theorem closest_is_nearest (cx cy : float64) (points : list (float64 * float64)) :
  points <> [] ->
  exists q,
    points !! Game.closest cx cy points 0 (math.Inf 1) 0 = Some q
    /\ Forall (fun p => (Inv.d2 cx cy p <? Inv.d2 cx cy q) = false) points.
Proof.
  intros Hne.
  destruct (closest_spec cx cy points 0 (math.Inf 1) 0) as [[Hm Hall] | (q & Hq & _ & _ & Hall)].
  - destruct points as [|q points]; [congruence |].
    exists q. rewrite Hm. split; [reflexivity |].
    eapply Forall_impl; [exact Hall |]. cbn beta. intros p Hp.
    destruct (Inv.d2 cx cy p <? Inv.d2 cx cy q) eqn:E; [| reflexivity].
    change (math.Inf 1) with infinity in Hp.
    rewrite (ltb_below_infinity _ _ E) in Hp. discriminate Hp.
  - exists q. rewrite Nat.sub_0_r in Hq. split; assumption.
Qed.

End ClosestFacts.

Lemma closest_is_nearest_witness :
  exists q,
    [(3, 4); (1, 0); (0, 2)]%float !! Game.closest 0 0 [(3, 4); (1, 0); (0, 2)]%float 0 (math.Inf 1) 0
      = Some q
    /\ Forall (fun p => (Inv.d2 0 0 p <? Inv.d2 0 0 q)%float = false)
         [(3, 4); (1, 0); (0, 2)]%float.
Proof.
  apply (closest_is_nearest 0 0 [(3, 4); (1, 0); (0, 2)]%float). discriminate.
Defined.

(** ** Obstacles *)

Section ObstacleFacts.

(** X4. [collidesWithObstacles] answers true exactly when the circle
    collides with one obstacle of the list at least; on no obstacle it
    answers false. *)
Theorem collidesWithObstacles_iff (x y radius : float64) (obstacles : list Obstacle.t) :
  Game.collidesWithObstacles x y radius obstacles = true
  <-> exists obstacle,
        obstacle ∈ obstacles /\ Game.circleRectCollision x y radius obstacle = true.
Proof.
  induction obstacles as [|o obstacles IH]; cbn [Game.collidesWithObstacles].
  - split; [discriminate | intros (o & Ho & _); inversion Ho].
  - destruct (Game.circleRectCollision x y radius o) eqn:E.
    + split; [intros _; exists o; split; [left | exact E] | reflexivity].
    + rewrite IH. split.
      * intros (o' & Ho' & E'). exists o'. split; [right; exact Ho' | exact E'].
      * intros (o' & Ho' & E'). exists o'. split; [| exact E'].
        apply elem_of_cons in Ho' as [-> | Ho']; [congruence | exact Ho'].
Qed.

End ObstacleFacts.

(** ** The rays of castRays *)

Section SortFacts.

Lemma sink_Permutation {A : Type} (less : A -> A -> bool) (x : A) (r : list A) :
  sink less x r ≡ₚ x :: r.
Proof.
  induction r as [|y r IH]; cbn [sink]; [reflexivity |].
  destruct (less x y); [| reflexivity].
  rewrite IH. apply Permutation_swap.
Qed.

Lemma insertionSort_Permutation {A : Type} (l : list A) (less : A -> A -> bool) :
  insertionSort l less ≡ₚ l.
Proof.
  unfold insertionSort. rewrite <- Permutation_rev.
  assert (Hacc : forall acc, foldl (fun acc x => sink less x acc) acc l ≡ₚ l ++ acc).
  { induction l as [|x l IH]; intros acc; cbn [foldl]; [reflexivity |].
    rewrite IH, sink_Permutation. cbn. symmetry. apply Permutation_middle. }
  rewrite Hacc, app_nil_r. reflexivity.
Qed.

Lemma Extern0_sortPermutes : @Inv.sortPermutes Extern0.
Proof. intros A l less. apply insertionSort_Permutation. Qed.

End SortFacts.

Section RayFacts.
Context `{Extern}.
Local Open Scope float_scope.

Lemma foldM_invariant {A B : Type} (P : B -> Prop) (f : B -> A -> option B) (l : list A) :
  (forall b a b', P b -> a ∈ l -> f b a = Some b' -> P b') ->
  forall b r, P b -> foldM f b l = Some r -> P r.
Proof.
  induction l as [|a l IH]; intros Hf b r Hb; cbn [foldM].
  - intros [= <-]. exact Hb.
  - destruct (f b a) as [b'|] eqn:E; cbn; [| discriminate].
    apply IH; [| exact (Hf b a b' Hb ltac:(left) E)].
    intros b0 a0 b0' H0 Ha0. apply Hf; [exact H0 | right; exact Ha0].
Qed.

Lemma foldM_grow {A B : Type} (f : list B -> A -> option (list B)) (w : A -> nat)
    (l : list A) :
  (forall b a b', a ∈ l -> f b a = Some b' -> (length b' <= length b + w a)%nat) ->
  forall b r, foldM f b l = Some r -> (length r <= length b + sum_list_with w l)%nat.
Proof.
  induction l as [|a l IH]; intros Hf b r; cbn [foldM sum_list_with].
  - intros [= <-]. lia.
  - destruct (f b a) as [b'|] eqn:E; cbn; [| discriminate]. intros Hr.
    pose proof (Hf b a b' ltac:(left) E).
    assert (length r <= length b' + sum_list_with w l)%nat; [| lia].
    apply IH; [| exact Hr]. intros b0 a0 b0' Ha0. apply Hf. right. exact Ha0.
Qed.

(** A hit point of a ray is where [Intersection] puts the ray on some
    wall of some object. *)
Lemma hitPoints_elem (ray : game.Line) (objects : list game.Object) (q : float64 * float64) :
  q ∈ Game.hitPoints ray objects ->
  exists o wall,
    o ∈ objects /\ wall ∈ game.Walls o /\ game.Intersection ray wall = (q.1, q.2, true).
Proof.
  unfold Game.hitPoints. intros Hq.
  apply list_elem_of_bind in Hq as (o & Hq & Ho).
  apply list_elem_of_bind in Hq as (wall & Hq & Hwall).
  exists o, wall. split; [exact Ho |]. split; [exact Hwall |].
  destruct (game.Intersection ray wall) as [[px py] ok].
  destruct ok; [| inversion Hq].
  apply list_elem_of_singleton in Hq. subst q. reflexivity.
Qed.

Lemma castProbe_step (cx cy : float64) (objects : list game.Object)
    (rayLength angle : float64) (rays rays' : list game.Line) (offset : float64) :
  Game.castProbe cx cy objects rayLength angle rays offset = Some rays' ->
  rays' = rays \/ exists r, rays' = rays ++ [r] /\ sight cx cy objects r.
Proof.
  unfold Game.castProbe.
  set (ray := game.NewRay cx cy rayLength (angle + offset)).
  set (points := Game.hitPoints ray objects).
  set (minI := Game.closest cx cy points 0 (math.Inf 1) 0).
  destruct (minI <? length points)%nat; [| intros [= <-]; left; reflexivity].
  destruct (points !! minI) as [q|] eqn:Hq; cbn; [| discriminate].
  intros [= <-]. right. eexists. split; [reflexivity |].
  split; [reflexivity |]. split; [reflexivity |].
  apply list_elem_of_lookup_2 in Hq.
  destruct (hitPoints_elem ray objects q Hq) as (o & wall & Ho & Hwall & E).
  exists ray, o, wall. repeat split; assumption.
Qed.
End RayFacts.

Section CastRaysMore.
Context `{Extern}.
Local Open Scope float_scope.

Lemma Points_shape (o : game.Object) (points : list (float64 * float64)) :
  game.Points o = Some points ->
  game.Walls o <> []
  /\ take (length (game.Walls o)) points = Param.secondEndpoint <$> game.Walls o
  /\ (length points = length (game.Walls o) \/ length points = S (length (game.Walls o))).
Proof.
  destruct o as [[|w ws]]; [discriminate |].
  pose proof (Points_nonempty w ws) as Hp. cbv zeta in Hp. rewrite Hp. clear Hp.
  cbn [game.Walls].
  assert (Hlen : length (Param.secondEndpoint <$> w :: ws) = length (w :: ws))
    by apply length_fmap.
  remember (Param.secondEndpoint <$> w :: ws) as pts eqn:Epts.
  remember (if (game.X1 w !=? (List.last pts (0, 0)).1) && (game.Y1 w !=? (List.last pts (0, 0)).2)
            then [(game.X1 w, game.Y1 w)] else []) as extra eqn:Eextra.
  intros Hsome. injection Hsome as <-.
  split; [discriminate |]. split.
  - rewrite <- Hlen. apply take_app_length.
  - rewrite length_app, Hlen. subst extra. destruct (_ && _); cbn [length]; [right | left]; lia.
Qed.

Lemma castRaysUnsorted_rays (cx cy : float64) (objects : list game.Object)
    (rays : list game.Line) :
  Game.castRaysUnsorted cx cy objects = Some rays ->
  Forall (sight cx cy objects) rays
  /\ (length rays <= 2 * sum_list_with (fun o => S (length (game.Walls o))) objects)%nat.
Proof.
  unfold Game.castRaysUnsorted.
  set (rayLength := math.Hypot _ _). intros Hrays. split.
  - revert Hrays. apply foldM_invariant; [| constructor].
    intros rays1 obj rays1' H1 _.
    destruct (game.Points obj) as [points|]; cbn [mbind option_bind]; [| discriminate].
    apply foldM_invariant; [| exact H1].
    intros rays2 p rays2' H2 _.
    apply foldM_invariant; [| exact H2].
    intros rays3 offset rays3' H3 _ Hstep.
    apply castProbe_step in Hstep as [-> | (r & -> & Hr)]; [exact H3 |].
    apply Forall_app. split; [exact H3 | constructor; [exact Hr | constructor]].
  - apply (foldM_grow _ (fun o => 2 * S (length (game.Walls o)))%nat) in Hrays.
    + cbn [length] in Hrays.
      assert (Hsum : forall l : list game.Object,
                sum_list_with (fun o => 2 * S (length (game.Walls o)))%nat l
                = (2 * sum_list_with (fun o => S (length (game.Walls o))) l)%nat).
      { induction l as [|o l IH]; cbn [sum_list_with]; lia. }
      rewrite Hsum in Hrays. lia.
    + intros rays1 obj rays1' _.
      destruct (game.Points obj) as [points|] eqn:Hp; cbn [mbind option_bind]; [| discriminate].
      destruct (Points_shape _ _ Hp) as (_ & _ & Hlen).
      intros Hin. apply (foldM_grow _ (fun _ => 2%nat)) in Hin.
      * assert (Hc : sum_list_with (fun _ : float64 * float64 => 2%nat) points
                     = (2 * length points)%nat).
        { clear. induction points as [|p l IH]; cbn [sum_list_with length]; lia. }
        rewrite Hc in Hin. lia.
      * intros rays2 p rays2' _ Hoff. cbn [foldM] in Hoff.
        destruct (Game.castProbe cx cy objects rayLength _ rays2 (-0.001)) as [r1|] eqn:E1;
          cbn [mbind option_bind] in Hoff; [| discriminate].
        destruct (Game.castProbe cx cy objects rayLength _ r1 0.001) as [r2|] eqn:E2;
          cbn [mbind option_bind] in Hoff; [| discriminate].
        injection Hoff as <-.
        apply castProbe_step in E1 as [-> | (x1 & -> & _)];
          apply castProbe_step in E2 as [-> | (x2 & -> & _)];
          rewrite ?length_app; cbn [length]; lia.
Qed.

(** X5. With a sort that only rearranges, every ray [castRays] returns
    starts at the viewpoint and ends where a probe from the viewpoint
    meets a wall of one of the objects, and there are at most two rays per
    vertex: no more than twice the number of walls plus one, summed over
    the objects. *)
Theorem castRays_rays (cx cy : float64) (objects : list game.Object) (rays : list game.Line) :
  Inv.sortPermutes ->
  Game.castRays cx cy objects = Some rays ->
  Forall (sight cx cy objects) rays
  /\ (length rays <= 2 * sum_list_with (fun o => S (length (game.Walls o))) objects)%nat.
Proof.
  intros Hsort. unfold Game.castRays.
  destruct (Game.castRaysUnsorted cx cy objects) as [rays0|] eqn:E;
    cbn [mbind option_bind]; [| discriminate].
  intros [= <-]. destruct (castRaysUnsorted_rays _ _ _ _ E) as [Hall Hlen].
  pose proof (Hsort _ rays0 (fun ri rj => game.Angle ri <? game.Angle rj)) as Hp.
  split.
  - rewrite Hp. exact Hall.
  - rewrite Hp. exact Hlen.
Qed.

End CastRaysMore.

Lemma castRays_rays_witness :
  @Inv.sortPermutes Extern0
  /\ @Game.castRays Extern0 800 450 (Game.Objects (@Game.newGame Extern0 "p1"))
     = Some (replicate 16 (game.mkLine 800 450 1580 450))
  /\ Forall (sight 800 450 (Game.Objects (@Game.newGame Extern0 "p1")))
       (replicate 16 (game.mkLine 800 450 1580 450))
  /\ (length (replicate 16 (game.mkLine 800 450 1580 450))
      <= 2 * sum_list_with (fun o => S (length (game.Walls o)))
                           (Game.Objects (@Game.newGame Extern0 "p1")))%nat.
Proof.
  assert (Hc : @Game.castRays Extern0 800 450 (Game.Objects (@Game.newGame Extern0 "p1"))
               = Some (replicate 16 (game.mkLine 800 450 1580 450)))
    by (vm_compute; reflexivity).
  split; [exact Extern0_sortPermutes |]. split; [exact Hc |].
  exact (@castRays_rays Extern0 800 450 _ _ Extern0_sortPermutes Hc).
Defined.

(** ** The bullets of a living player *)

Section BulletFacts.
Context `{Extern}.

Lemma updateBullets_inField (bullets : list Bullet.t) :
  Forall Inv.inField (Player.updateBullets bullets).
Proof.
  induction bullets as [|b bs IH]; cbn [Player.updateBullets]; [constructor |].
  destruct (Bullet.OutOfBounds (Bullet.Update b) 1600 900) eqn:E; [exact IH |].
  constructor; [exact E | exact IH].
Qed.


Lemma Update_living (inp : Input) (hitsObstacle : bool) (p : Player.t) :
  (0 < Player.Health p)%Z ->
  exists x y angle,
    Player.Update inp hitsObstacle p =
      let p1 := Player.setPose x y angle p in
      let p2 := if Inv.fires inp p
                then Player.setLastShot (ShotNow inp) (Player.Shoot inp p1) else p1 in
      Player.setBullets (Player.updateBullets (Player.Bullets p2)) p2.
Proof.
  intros Hh. unfold Player.Update.
  destruct (Z.leb_spec (Player.Health p) 0); [lia |].
  destruct (CursorPosition inp) as [mx my]. eexists _, _, _. reflexivity.
Qed.

(** X6. After [Player.Update] on a living player, every bullet it keeps
    lies inside the field of 1600 by 900 (none is [OutOfBounds]), and the
    bullets are still the player's own if they were. *)
Theorem Update_bullets_in_field (inp : Input) (hitsObstacle : bool) (p : Player.t) :
  (0 < Player.Health p)%Z ->
  Forall Inv.inField (Player.Bullets (Player.Update inp hitsObstacle p))
  /\ (Param.owned p -> Param.owned (Player.Update inp hitsObstacle p)).
Proof.
  intros Hh. split; [| apply Update_owned].
  destruct (Update_living inp hitsObstacle p Hh) as (x & y & angle & ->).
  cbn zeta. cbn [Player.Bullets Player.setBullets]. apply updateBullets_inField.
Qed.


End BulletFacts.

Lemma Update_bullets_in_field_witness :
  (0 < Player.Health Sample.shooter)%Z
  /\ Forall Inv.inField
       (Player.Bullets (@Player.Update Extern0 Sample.allKeys false Sample.shooter))
  /\ (Param.owned Sample.shooter ->
      Param.owned (@Player.Update Extern0 Sample.allKeys false Sample.shooter)).
Proof.
  assert (Hh : (0 < Player.Health Sample.shooter)%Z) by (vm_compute; reflexivity).
  split; [exact Hh |].
  exact (@Update_bullets_in_field Extern0 Sample.allKeys false Sample.shooter Hh).
Defined.


(** ** One pass of checkBulletCollisions *)

Section PassFacts.
Context `{Extern}.
Local Open Scope Z_scope.

Lemma scanBullets_sublist (otherPlayer : Player.t) (bullets : list Bullet.t) :
  (Game.scanBullets otherPlayer bullets).1.2 `sublist_of` bullets.
Proof.
  induction bullets as [|b bs IH]; cbn [Game.scanBullets]; [constructor |].
  destruct (Game.scanBullets otherPlayer bs) as [[o' rest] sent]. cbn [fst snd] in IH.
  destruct (Game.firstContact o' b); cbn [fst snd].
  - apply sublist_cons. exact IH.
  - apply sublist_skip. exact IH.
Qed.

Lemma applyHit_worn (p : Player.t) :
  0 <= Player.Health p -> Int.is_int (Player.Health p) -> Inv.worn p (Game.applyHit p).
Proof.
  intros Hh Hint. unfold Inv.worn, Game.applyHit, Int.sub.
  rewrite wrap_is_int by (unfold Int.is_int, Int.min_int, Int.max_int in *; lia).
  destruct p as [id x y a h bs ls sp]. cbn in *. split; [reflexivity |].
  destruct (Z.ltb_spec (h - 50) 0); lia.
Qed.

Lemma worn_refl (p : Player.t) : 0 <= Player.Health p -> Inv.worn p p.
Proof. intros Hh. destruct p. split; [reflexivity | cbn in *; lia]. Qed.

Lemma worn_trans (p q r : Player.t) : Inv.worn p q -> Inv.worn q r -> Inv.worn p r.
Proof.
  intros [E1 H1] [E2 H2]. split; [| lia].
  destruct p, q, r. unfold Player.setHealth in *. cbn in *.
  injection E1 as -> -> -> -> -> -> ->. injection E2 as -> -> -> -> -> -> ->. reflexivity.
Qed.

Lemma worn_is_int (p q : Player.t) :
  Int.is_int (Player.Health p) -> Inv.worn p q -> Int.is_int (Player.Health q).
Proof. unfold Int.is_int, Int.min_int, Int.max_int. intros Hp [_ Hq]. lia. Qed.

Lemma scanBullets_worn (otherPlayer : Player.t) (bullets : list Bullet.t) :
  0 <= Player.Health otherPlayer -> Int.is_int (Player.Health otherPlayer) ->
  Inv.worn otherPlayer (Game.scanBullets otherPlayer bullets).1.1.
Proof.
  intros Hh Hint. induction bullets as [|b bs IH]; cbn [Game.scanBullets].
  - apply worn_refl, Hh.
  - destruct (Game.scanBullets otherPlayer bs) as [[o' rest] sent]. cbn [fst snd] in IH.
    destruct (Game.firstContact o' b); cbn [fst snd]; [| exact IH].
    eapply worn_trans; [exact IH |].
    apply applyHit_worn; [destruct IH; lia | exact (worn_is_int _ _ Hint IH)].
Qed.

Lemma sendHits_conn (sent : list Event) (g : Game.t) :
  Forall Inv.isHit20 sent ->
  Game.conn (foldl (fun g e => Game.sendEvent e g) g sent) = Game.conn g ++ sent.
Proof.
  intros Hsent. revert g. induction Hsent as [|e sent [v ->] _ IH]; intros g; cbn [foldl].
  - rewrite app_nil_r. reflexivity.
  - rewrite IH. cbn. rewrite <- app_assoc. reflexivity.
Qed.

Lemma sendEvents_rest (sent : list Event) (g : Game.t) :
  Game.obstacles (foldl (fun g e => Game.sendEvent e g) g sent) = Game.obstacles g
  /\ Game.Objects (foldl (fun g e => Game.sendEvent e g) g sent) = Game.Objects g.
Proof.
  revert g. induction sent as [|e sent IH]; intros g; cbn [foldl]; [auto |].
  destruct (IH (Game.sendEvent e g)) as [-> ->].
  unfold Game.sendEvent. destruct (Game.marshal e); auto.
Qed.

Lemma passes_refl (g : Game.t) : passes g g.
Proof.
  split; try reflexivity.
  - intros k p' Hk. exists p'. auto.
  - destruct (Game.player g). reflexivity.
  - exists []. rewrite app_nil_r. repeat split; [constructor | cbn; lia].
Qed.

Lemma passes_trans (g1 g2 g3 : Game.t) : passes g1 g2 -> passes g2 g3 -> passes g1 g3.
Proof.
  intros [D1 I1 P1 B1 O1 J1 (s1 & C1 & F1 & L1)] [D2 I2 P2 B2 O2 J2 (s2 & C2 & F2 & L2)].
  split.
  - congruence.
  - intros k p3 Hk. destruct (I2 k p3 Hk) as (p2 & Hk2 & E2).
    destruct (I1 k p2 Hk2) as (p1 & Hk1 & E1). exists p1. split; [exact Hk1 | congruence].
  - destruct (Game.player g1), (Game.player g2), (Game.player g3).
    unfold Player.setBullets in *. cbn in *.
    injection P1 as -> -> -> -> -> -> ->. injection P2 as -> -> -> -> -> -> ->. reflexivity.
  - etransitivity; eassumption.
  - congruence.
  - congruence.
  - exists (s1 ++ s2). split; [rewrite C2, C1, app_assoc; reflexivity |]. split.
    + apply Forall_app. split; [exact F1 |].
      eapply Forall_impl; [exact F2 |]. cbn beta. intros e (k & p2 & Hk2 & ->).
      destruct (I1 k p2 Hk2) as (p1 & Hk1 & E1). exists k, p1. split; [exact Hk1 |].
      rewrite E1. reflexivity.
    + rewrite length_app. lia.
Qed.

Lemma checkPlayer_passes (g : Game.t) (k : string) : passes g (Game.checkPlayer g k).
Proof.
  unfold Game.checkPlayer.
  destruct (Game.players g !! k) as [q|] eqn:Hk; [| apply passes_refl].
  destruct (_ || _); [apply passes_refl |].
  pose proof (scanBullets_account q (Player.Bullets (Game.player g))) as Hacc.
  pose proof (scanBullets_sublist q (Player.Bullets (Game.player g))) as Hsub.
  destruct (Game.scanBullets q (Player.Bullets (Game.player g))) as [[q' rest] sent].
  destruct Hacc as (Hlen & Hid & Hev & _). cbn [fst snd] in Hsub.
  assert (Hhits : Forall Inv.isHit20 sent).
  { eapply Forall_impl; [exact Hev |]. cbn beta. intros e He. rewrite He. eexists. reflexivity. }
  split.
  - rewrite sendEvents_players. cbn. apply dom_insert_lookup_L. eauto.
  - rewrite sendEvents_players. cbn. intros k' p' Hk'.
    destruct (decide (k = k')) as [<- | Hne].
    + rewrite lookup_insert_eq in Hk'. injection Hk' as <-. exists q. auto.
    + rewrite lookup_insert_ne in Hk' by exact Hne. exists p'. auto.
  - rewrite sendEvents_player. cbn. destruct (Game.player g). reflexivity.
  - rewrite sendEvents_player. cbn. exact Hsub.
  - destruct (sendEvents_rest sent
      (Game.setPlayers (<[k:=q']> (Game.players g))
         (Game.setPlayer (Player.setBullets rest (Game.player g)) g))) as [-> _]. reflexivity.
  - destruct (sendEvents_rest sent
      (Game.setPlayers (<[k:=q']> (Game.players g))
         (Game.setPlayer (Player.setBullets rest (Game.player g)) g))) as [_ ->]. reflexivity.
  - exists sent. rewrite sendHits_conn by exact Hhits. rewrite sendEvents_player. cbn.
    split; [reflexivity |]. split; [| exact Hlen].
    eapply Forall_impl; [exact Hev |]. cbn beta. intros e He. rewrite He. exists k, q. auto.
Qed.

Lemma checkBulletCollisions_passes (order : list string) (g : Game.t) :
  passes g (Game.checkBulletCollisions order g).
Proof.
  unfold Game.checkBulletCollisions. revert g.
  induction order as [|k order IH]; intros g; cbn [foldl]; [apply passes_refl |].
  eapply passes_trans; [apply checkPlayer_passes | apply IH].
Qed.

(** X8. A pass of [checkBulletCollisions], in whatever order the map is
    ranged, adds and removes no remote player, changes nothing of the
    local player but its bullets, only removes bullets (those left keep
    their order), and leaves the obstacles and objects alone. *)
Theorem checkBulletCollisions_frame (order : list string) (g : Game.t) :
  let g' := Game.checkBulletCollisions order g in
  dom (Game.players g') = dom (Game.players g)
  /\ Player.setBullets (Player.Bullets (Game.player g)) (Game.player g') = Game.player g
  /\ Player.Bullets (Game.player g') `sublist_of` Player.Bullets (Game.player g)
  /\ Game.obstacles g' = Game.obstacles g
  /\ Game.Objects g' = Game.Objects g.
Proof.
  cbn zeta. destruct (checkBulletCollisions_passes order g). auto.
Qed.

(** X9. A pass of [checkBulletCollisions] only appends to what was
    written to the connection; it appends one PlayerHit for each bullet it
    removes, no other event, and each names a player of the map with the
    damage 20. *)
Theorem checkBulletCollisions_one_event_per_bullet (order : list string) (g : Game.t) :
  let g' := Game.checkBulletCollisions order g in
  exists sent,
    Game.conn g' = Game.conn g ++ sent
    /\ Forall (fun e => exists k p, Game.players g !! k = Some p
                          /\ e = EventPlayerHit (PlayerHit.mk (Player.ID p) 20)) sent
    /\ (length (Player.Bullets (Game.player g')) + length sent
        = length (Player.Bullets (Game.player g)))%nat.
Proof.
  cbn zeta. destruct (checkBulletCollisions_passes order g). assumption.
Qed.

Lemma checkPlayer_worn (g : Game.t) (k k' : string) (p : Player.t) :
  Game.players g !! k = Some p ->
  0 <= Player.Health p -> Int.is_int (Player.Health p) ->
  exists p', Game.players (Game.checkPlayer g k') !! k = Some p' /\ Inv.worn p p'.
Proof.
  intros Hk Hh Hint. destruct (decide (k = k')) as [<- | Hne].
  - unfold Game.checkPlayer. rewrite Hk.
    destruct (_ || _); [exists p; split; [exact Hk | apply worn_refl, Hh] |].
    pose proof (scanBullets_worn p (Player.Bullets (Game.player g)) Hh Hint) as Hw.
    destruct (Game.scanBullets p (Player.Bullets (Game.player g))) as [[q' rest] sent].
    cbn [fst snd] in Hw. exists q'. split; [| exact Hw].
    rewrite sendEvents_players. cbn. apply lookup_insert_eq.
  - exists p. split; [| apply worn_refl, Hh].
    rewrite checkPlayer_other by exact Hne. exact Hk.
Qed.

(** X10. For a remote player whose health is 0 or more, a pass of
    [checkBulletCollisions] leaves the record as it was but for the health,
    and the health after the pass is between 0 and the health before:
    hits never heal and never go below 0. *)
Theorem checkBulletCollisions_wears (order : list string) (g : Game.t)
    (k : string) (p : Player.t) :
  Game.players g !! k = Some p ->
  0 <= Player.Health p -> Int.is_int (Player.Health p) ->
  exists p', Game.players (Game.checkBulletCollisions order g) !! k = Some p' /\ Inv.worn p p'.
Proof.
  unfold Game.checkBulletCollisions. revert g p.
  induction order as [|k' order IH]; intros g p Hk Hh Hint; cbn [foldl].
  - exists p. split; [exact Hk | apply worn_refl, Hh].
  - destruct (checkPlayer_worn g k k' p Hk Hh Hint) as (p1 & Hk1 & Hw1).
    destruct (IH _ p1 Hk1 ltac:(destruct Hw1; lia) (worn_is_int _ _ Hint Hw1))
      as (p2 & Hk2 & Hw2).
    exists p2. split; [exact Hk2 | exact (worn_trans _ _ _ Hw1 Hw2)].
Qed.

End PassFacts.

Lemma checkBulletCollisions_wears_witness :
  Game.players (Sample.duel Sample.target) !! "222"%string = Some Sample.target
  /\ (0 <= Player.Health Sample.target)%Z
  /\ Int.is_int (Player.Health Sample.target)
  /\ exists p',
       Game.players (@Game.checkBulletCollisions Extern0 ["222"%string]
                       (Sample.duel Sample.target)) !! "222"%string = Some p'
       /\ Inv.worn Sample.target p'.
Proof.
  assert (Hk : Game.players (Sample.duel Sample.target) !! "222"%string = Some Sample.target)
    by reflexivity.
  assert (Hh : (0 <= Player.Health Sample.target)%Z) by (vm_compute; discriminate).
  assert (Hint : Int.is_int (Player.Health Sample.target))
    by (vm_compute; split; discriminate).
  split; [exact Hk |]. split; [exact Hh |]. split; [exact Hint |].
  exact (@checkBulletCollisions_wears Extern0 ["222"%string] _ _ _ Hk Hh Hint).
Defined.

(** ** The merge loop *)

Section ListenFacts.
Context `{Extern}.
Local Open Scope Z_scope.

Lemma mergePlayerUpdate_player (update : PlayerUpdate.t) (g : Game.t) :
  Game.player (Game.mergePlayerUpdate update g) = Game.player g.
Proof. unfold Game.mergePlayerUpdate. destruct (String.eqb _ _); reflexivity. Qed.

Lemma mergePlayerUpdate_dom (update : PlayerUpdate.t) (g : Game.t) :
  dom (Game.players (Game.mergePlayerUpdate update g)) =
    if String.eqb (PlayerUpdate.ID update) (Player.ID (Game.player g))
    then dom (Game.players g)
    else {[PlayerUpdate.ID update]} ∪ dom (Game.players g).
Proof.
  unfold Game.mergePlayerUpdate. destruct (String.eqb _ _); [reflexivity |].
  cbn. apply dom_insert_L.
Qed.

Lemma mergePlayerHit_dom (hit : PlayerHit.t) (g : Game.t) :
  dom (Game.players (Game.mergePlayerHit hit g)) = dom (Game.players g).
Proof.
  unfold Game.mergePlayerHit.
  destruct (Game.players g !! PlayerHit.VictimID hit) as [q|] eqn:Hq;
    destruct (String.eqb _ _); cbn; try reflexivity;
    apply dom_insert_lookup_L; eauto.
Qed.

Lemma mergePlayerHit_player (hit : PlayerHit.t) (g : Game.t) :
  Player.setHealth (Player.Health (Game.player g)) (Game.player (Game.mergePlayerHit hit g))
  = Game.player g.
Proof.
  unfold Game.mergePlayerHit.
  destruct (Game.players g !! PlayerHit.VictimID hit) as [q|];
    destruct (String.eqb _ _); cbn; destruct (Game.player g); reflexivity.
Qed.

Lemma merge_rest (frame : Frame) (g : Game.t) :
  Game.obstacles (Game.merge frame g) = Game.obstacles g
  /\ Game.Objects (Game.merge frame g) = Game.Objects g
  /\ Game.conn (Game.merge frame g) = Game.conn g.
Proof.
  destruct frame; cbn [Game.merge]; auto.
  - unfold Game.mergePlayerUpdate. destruct (String.eqb _ _); auto.
  - unfold Game.mergePlayerHit.
    destruct (Game.players g !! PlayerHit.VictimID hit) as [q|];
      destruct (String.eqb _ _); auto.
Qed.

Lemma merge_player (frame : Frame) (g : Game.t) :
  Player.setHealth (Player.Health (Game.player g)) (Game.player (Game.merge frame g))
  = Game.player g.
Proof.
  destruct frame; cbn [Game.merge]; try (destruct (Game.player g); reflexivity).
  - rewrite mergePlayerUpdate_player. destruct (Game.player g); reflexivity.
  - apply mergePlayerHit_player.
Qed.

Lemma setHealth_ID (h : Z) (p q : Player.t) :
  Player.setHealth h p = q -> Player.ID p = Player.ID q.
Proof. intros <-. reflexivity. Qed.

(** X11. Whatever lines arrive, [listenForUpdates] changes nothing of the
    local player but its health, and leaves the obstacles, the objects and
    what was written to the connection as they were. *)
Theorem listenForUpdates_local_frame (frames : list Frame) (g : Game.t) :
  let g' := Game.listenForUpdates frames g in
  Player.setHealth (Player.Health (Game.player g)) (Game.player g') = Game.player g
  /\ Game.obstacles g' = Game.obstacles g
  /\ Game.Objects g' = Game.Objects g
  /\ Game.conn g' = Game.conn g.
Proof.
  cbn zeta. unfold Game.listenForUpdates. revert g.
  induction frames as [|frame frames IH]; intros g; cbn [foldl].
  - destruct (Game.player g); auto.
  - destruct (IH (Game.merge frame g)) as (Hp & Ho & Hj & Hc).
    destruct (merge_rest frame g) as (-> & -> & ->) in Ho, Hj, Hc.
    repeat split; try assumption.
    pose proof (merge_player frame g) as Hm.
    destruct (Game.player g), (Game.player (Game.merge frame g)),
      (Game.player (foldl (fun g0 frame0 => Game.merge frame0 g0) (Game.merge frame g) frames)).
    unfold Player.setHealth in *. cbn in *.
    injection Hm as -> -> -> -> -> -> ->. injection Hp as -> -> -> -> -> -> ->. reflexivity.
Qed.

(** X12. After [listenForUpdates] the map holds the players it held
    before and, besides, exactly the identities of the player_update
    payloads that arrived and are not the local player's: no player is
    ever removed, and none is filed under the local identity by the merge. *)
Theorem listenForUpdates_players (frames : list Frame) (g : Game.t) (k : string) :
  k ∈ dom (Game.players (Game.listenForUpdates frames g))
  <-> k ∈ dom (Game.players g)
      \/ (k <> Player.ID (Game.player g)
          /\ exists update, FramePlayerUpdate update ∈ frames /\ PlayerUpdate.ID update = k).
Proof.
  revert g. induction frames as [|frame frames IH]; intros g.
  - cbn. split; [auto | intros [Hk | (_ & u & Hu & _)]; [exact Hk | inversion Hu]].
  - change (Game.listenForUpdates (frame :: frames) g)
      with (Game.listenForUpdates frames (Game.merge frame g)).
    rewrite IH. clear IH.
    assert (Hid : Player.ID (Game.player (Game.merge frame g)) = Player.ID (Game.player g))
      by exact (setHealth_ID _ _ _ (merge_player frame g)).
    rewrite Hid.
    assert (Hdom : k ∈ dom (Game.players (Game.merge frame g))
              <-> k ∈ dom (Game.players g)
                  \/ (k <> Player.ID (Game.player g)
                      /\ exists update, frame = FramePlayerUpdate update
                                        /\ PlayerUpdate.ID update = k)).
    { destruct frame as [| | |u|hit]; cbn [Game.merge];
        try (split; [auto | intros [Hk | (_ & u & Hu & _)]; [exact Hk | discriminate Hu]]).
      - rewrite mergePlayerUpdate_dom.
        destruct (String.eqb_spec (PlayerUpdate.ID u) (Player.ID (Game.player g))) as [E | E].
        + split; [auto | intros [Hk | (Hne & u' & [= <-] & Hu')]; [exact Hk | congruence]].
        + rewrite elem_of_union, elem_of_singleton. split.
          * intros [-> | Hk]; [right; split; [exact E | eauto] | left; exact Hk].
          * intros [Hk | (Hne & u' & [= <-] & Hu')]; [right; exact Hk | left; congruence].
      - rewrite mergePlayerHit_dom.
        split; [auto | intros [Hk | (_ & u & Hu & _)]; [exact Hk | discriminate Hu]]. }
    rewrite Hdom. split.
    + intros [[Hk | (Hne & u & -> & Hu)] | (Hne & u & Hin & Hu)].
      * left. exact Hk.
      * right. split; [exact Hne |]. exists u. split; [left | exact Hu].
      * right. split; [exact Hne |]. exists u. split; [right; exact Hin | exact Hu].
    + intros [Hk | (Hne & u & Hin & Hu)]; [left; left; exact Hk |].
      apply elem_of_cons in Hin as [<- | Hin].
      * left. right. split; [exact Hne |]. exists u. auto.
      * right. split; [exact Hne |]. exists u. auto.
Qed.

(** X13. The last player_update of an identity wins: merging one payload
    and then another of the same identity gives the state that merging the
    second alone gives. *)
Theorem mergePlayerUpdate_last_wins (update update' : PlayerUpdate.t) (g : Game.t) :
  PlayerUpdate.ID update = PlayerUpdate.ID update' ->
  Game.mergePlayerUpdate update' (Game.mergePlayerUpdate update g)
  = Game.mergePlayerUpdate update' g.
Proof.
  intros Hid. unfold Game.mergePlayerUpdate at 2. rewrite Hid.
  destruct (String.eqb (PlayerUpdate.ID update') (Player.ID (Game.player g))) eqn:E;
    [reflexivity |].
  unfold Game.mergePlayerUpdate. cbn [Game.player Game.setPlayers Game.players].
  rewrite E, lookup_insert_eq. unfold Game.setPlayers. cbn.
  rewrite insert_insert_eq.
  destruct (Game.players g !! PlayerUpdate.ID update'); cbn; rewrite ?Hid; reflexivity.
Qed.

(** X14. Player_update payloads of two different identities commute: the
    state after merging both does not depend on which arrived first. *)
Theorem mergePlayerUpdate_commute (update update' : PlayerUpdate.t) (g : Game.t) :
  PlayerUpdate.ID update <> PlayerUpdate.ID update' ->
  Game.mergePlayerUpdate update (Game.mergePlayerUpdate update' g)
  = Game.mergePlayerUpdate update' (Game.mergePlayerUpdate update g).
Proof.
  intros Hne. unfold Game.mergePlayerUpdate.
  destruct (String.eqb (PlayerUpdate.ID update) (Player.ID (Game.player g))) eqn:E;
    destruct (String.eqb (PlayerUpdate.ID update') (Player.ID (Game.player g))) eqn:E';
    cbn [Game.player Game.setPlayers Game.players]; rewrite ?E, ?E'; try reflexivity.
  rewrite !lookup_insert_ne by congruence.
  unfold Game.setPlayers. cbn. rewrite insert_insert_ne by congruence. reflexivity.
Qed.

(** X15. A player_hit whose victim is neither in the map nor the local
    player changes nothing. *)
Theorem mergePlayerHit_unknown_victim (hit : PlayerHit.t) (g : Game.t) :
  Game.players g !! PlayerHit.VictimID hit = None ->
  PlayerHit.VictimID hit <> Player.ID (Game.player g) ->
  Game.mergePlayerHit hit g = g.
Proof.
  intros Hnone Hne. unfold Game.mergePlayerHit. rewrite Hnone.
  destruct (String.eqb_spec (PlayerHit.VictimID hit) (Player.ID (Game.player g)));
    [congruence | reflexivity].
Qed.

(** X16. A player_hit on a remote player of the map leaves that player as
    it was but for the health, which becomes the difference raised to 0
    when negative, so it is never below 0; every other remote player is
    untouched. *)
Theorem mergePlayerHit_remote_clamped (hit : PlayerHit.t) (g : Game.t) (victim : Player.t) :
  Game.players g !! PlayerHit.VictimID hit = Some victim ->
  exists victim',
    Game.players (Game.mergePlayerHit hit g) !! PlayerHit.VictimID hit = Some victim'
    /\ Player.setHealth (Player.Health victim) victim' = victim
    /\ Player.Health victim'
       = Z.max 0 (Int.sub (Player.Health victim) (PlayerHit.Damage hit))
    /\ 0 <= Player.Health victim'
    /\ forall k, k <> PlayerHit.VictimID hit ->
         Game.players (Game.mergePlayerHit hit g) !! k = Game.players g !! k.
Proof.
  intros Hv. eexists. split; [exact (mergePlayerHit_remote hit g victim Hv) |].
  split; [destruct victim; reflexivity |]. split; [cbn; lia |]. split; [cbn; lia |].
  intros k Hne. unfold Game.mergePlayerHit. rewrite Hv.
  destruct (String.eqb _ _); cbn; apply lookup_insert_ne; congruence.
Qed.

End ListenFacts.

Lemma mergePlayerUpdate_last_wins_witness :
  PlayerUpdate.ID (PlayerUpdate.mk "222" 1 2 0 70 []) = PlayerUpdate.ID (PlayerUpdate.mk "222" 5 6 0 40 [])
  /\ @Game.mergePlayerUpdate Extern0 (PlayerUpdate.mk "222" 5 6 0 40 [])
       (@Game.mergePlayerUpdate Extern0 (PlayerUpdate.mk "222" 1 2 0 70 [])
          (Sample.duel Sample.target))
     = @Game.mergePlayerUpdate Extern0 (PlayerUpdate.mk "222" 5 6 0 40 [])
         (Sample.duel Sample.target).
Proof.
  assert (Hid : PlayerUpdate.ID (PlayerUpdate.mk "222" 1 2 0 70 [])
                = PlayerUpdate.ID (PlayerUpdate.mk "222" 5 6 0 40 [])) by reflexivity.
  split; [exact Hid |].
  exact (@mergePlayerUpdate_last_wins Extern0 _ _ (Sample.duel Sample.target) Hid).
Defined.

Lemma mergePlayerUpdate_commute_witness :
  PlayerUpdate.ID (PlayerUpdate.mk "222" 1 2 0 70 []) <> PlayerUpdate.ID (PlayerUpdate.mk "333" 5 6 0 40 [])
  /\ @Game.mergePlayerUpdate Extern0 (PlayerUpdate.mk "222" 1 2 0 70 [])
       (@Game.mergePlayerUpdate Extern0 (PlayerUpdate.mk "333" 5 6 0 40 [])
          (Sample.duel Sample.target))
     = @Game.mergePlayerUpdate Extern0 (PlayerUpdate.mk "333" 5 6 0 40 [])
         (@Game.mergePlayerUpdate Extern0 (PlayerUpdate.mk "222" 1 2 0 70 [])
            (Sample.duel Sample.target)).
Proof.
  assert (Hne : PlayerUpdate.ID (PlayerUpdate.mk "222" 1 2 0 70 [])
                <> PlayerUpdate.ID (PlayerUpdate.mk "333" 5 6 0 40 [])) by discriminate.
  split; [exact Hne |].
  exact (@mergePlayerUpdate_commute Extern0 _ _ (Sample.duel Sample.target) Hne).
Defined.

Lemma mergePlayerHit_unknown_victim_witness :
  Game.players (Sample.duel Sample.target) !! PlayerHit.VictimID (PlayerHit.mk "999" 20) = None
  /\ PlayerHit.VictimID (PlayerHit.mk "999" 20) <> Player.ID (Game.player (Sample.duel Sample.target))
  /\ Game.mergePlayerHit (PlayerHit.mk "999" 20) (Sample.duel Sample.target)
     = Sample.duel Sample.target.
Proof.
  assert (Hnone : Game.players (Sample.duel Sample.target)
                    !! PlayerHit.VictimID (PlayerHit.mk "999" 20) = None) by reflexivity.
  assert (Hne : PlayerHit.VictimID (PlayerHit.mk "999" 20)
                <> Player.ID (Game.player (Sample.duel Sample.target))) by discriminate.
  split; [exact Hnone |]. split; [exact Hne |].
  exact (mergePlayerHit_unknown_victim _ _ Hnone Hne).
Defined.

Lemma mergePlayerHit_remote_clamped_witness :
  Game.players (Sample.duel Sample.target) !! PlayerHit.VictimID (PlayerHit.mk "222" 120)
  = Some Sample.target
  /\ exists victim',
       Game.players (Game.mergePlayerHit (PlayerHit.mk "222" 120) (Sample.duel Sample.target))
         !! PlayerHit.VictimID (PlayerHit.mk "222" 120) = Some victim'
       /\ Player.setHealth (Player.Health Sample.target) victim' = Sample.target
       /\ Player.Health victim'
          = Z.max 0 (Int.sub (Player.Health Sample.target)
                       (PlayerHit.Damage (PlayerHit.mk "222" 120)))
       /\ (0 <= Player.Health victim')%Z
       /\ forall k, k <> PlayerHit.VictimID (PlayerHit.mk "222" 120) ->
            Game.players (Game.mergePlayerHit (PlayerHit.mk "222" 120)
                            (Sample.duel Sample.target)) !! k
            = Game.players (Sample.duel Sample.target) !! k.
Proof.
  assert (Hv : Game.players (Sample.duel Sample.target)
                 !! PlayerHit.VictimID (PlayerHit.mk "222" 120) = Some Sample.target)
    by reflexivity.
  split; [exact Hv |].
  exact (mergePlayerHit_remote_clamped (PlayerHit.mk "222" 120) _ _ Hv).
Defined.

(** ** The invariant of the player map *)

Section KeyedFacts.
Context `{Extern}.
Local Open Scope Z_scope.

Lemma mergePlayerUpdate_keyed (update : PlayerUpdate.t) (g : Game.t) :
  Inv.keyed g -> Inv.keyed (Game.mergePlayerUpdate update g).
Proof.
  intros Hk k p. unfold Game.mergePlayerUpdate.
  destruct (String.eqb _ _); [apply Hk |].
  cbn [Game.players Game.setPlayers].
  destruct (decide (k = PlayerUpdate.ID update)) as [-> | Hne].
  - rewrite lookup_insert_eq. intros [= <-]. cbn [Player.ID].
    destruct (Game.players g !! PlayerUpdate.ID update) as [q|] eqn:Hq;
      [exact (Hk _ _ Hq) | reflexivity].
  - rewrite lookup_insert_ne by congruence. apply Hk.
Qed.

Lemma mergePlayerHit_keyed (hit : PlayerHit.t) (g : Game.t) :
  Inv.keyed g -> Inv.keyed (Game.mergePlayerHit hit g).
Proof.
  intros Hk k p. unfold Game.mergePlayerHit.
  destruct (Game.players g !! PlayerHit.VictimID hit) as [q|] eqn:Hq.
  - assert (Hins : <[PlayerHit.VictimID hit :=
                       Player.setHealth
                         (if Int.sub (Player.Health q) (PlayerHit.Damage hit) <? 0 then 0
                          else Int.sub (Player.Health q) (PlayerHit.Damage hit)) q]>
                     (Game.players g) !! k = Some p -> Player.ID p = k).
    { destruct (decide (k = PlayerHit.VictimID hit)) as [-> | Hne].
      - rewrite lookup_insert_eq. intros [= <-]. exact (Hk _ _ Hq).
      - rewrite lookup_insert_ne by congruence. apply Hk. }
    destruct (String.eqb _ _); exact Hins.
  - destruct (String.eqb _ _); apply Hk.
Qed.

Lemma listenForUpdates_keyed (frames : list Frame) (g : Game.t) :
  Inv.keyed g -> Inv.keyed (Game.listenForUpdates frames g).
Proof.
  unfold Game.listenForUpdates. revert g.
  induction frames as [|frame frames IH]; intros g Hk; cbn [foldl]; [exact Hk |].
  apply IH. destruct frame; cbn [Game.merge]; try exact Hk.
  - apply mergePlayerUpdate_keyed, Hk.
  - apply mergePlayerHit_keyed, Hk.
Qed.

Lemma Player_Update_ID_Health (inp : Input) (hitsObstacle : bool) (p : Player.t) :
  Player.ID (Player.Update inp hitsObstacle p) = Player.ID p
  /\ Player.Health (Player.Update inp hitsObstacle p) = Player.Health p.
Proof.
  unfold Player.Update. destruct (Player.Health p <=? 0); [auto |].
  destruct (CursorPosition inp) as [mx my]. cbv zeta.
  destruct (MouseButtonLeft inp && _); cbn; auto.
Qed.

Lemma Update_passes (inp : Input) (order : list string) (g : Game.t) :
  exists g1,
    passes (Game.setPlayer
              (Player.Update inp
                 (Game.collidesWithObstacles (Player.X (Game.player g))
                    (Player.Y (Game.player g)) 10 (Game.obstacles g))
                 (Game.player g)) g) g1
    /\ Game.Update inp order g = Game.sendEvent (EventPlayerUpdate (snapshot (Game.player g1))) g1.
Proof.
  eexists. split; [apply (checkBulletCollisions_passes order) |]. reflexivity.
Qed.

Lemma sendEvent_rest (e : Event) (g : Game.t) :
  Game.player (Game.sendEvent e g) = Game.player g
  /\ Game.players (Game.sendEvent e g) = Game.players g
  /\ Game.obstacles (Game.sendEvent e g) = Game.obstacles g
  /\ Game.Objects (Game.sendEvent e g) = Game.Objects g.
Proof. unfold Game.sendEvent. destruct (Game.marshal e); auto. Qed.

Lemma Update_keyed (inp : Input) (order : list string) (g : Game.t) :
  Inv.keyed g -> Inv.keyed (Game.Update inp order g).
Proof.
  intros Hk k p. destruct (Update_passes inp order g) as (g1 & Hp & ->).
  destruct (sendEvent_rest (EventPlayerUpdate (snapshot (Game.player g1))) g1)
    as (_ & -> & _).
  intros Hl. destruct (pass_ids _ _ Hp k p Hl) as (q & Hq & Hid).
  rewrite <- Hid. exact (Hk _ _ Hq).
Qed.

(** X17. Every remote player stays filed under its own identity: if the
    keys of the map are the identities of the players they hold, they
    still are after a frame of [Update] and after any lines merged by
    [listenForUpdates]. *)
Theorem players_stay_keyed (inp : Input) (order : list string) (frames : list Frame)
    (g : Game.t) :
  Inv.keyed g ->
  Inv.keyed (Game.Update inp order g) /\ Inv.keyed (Game.listenForUpdates frames g).
Proof.
  intros Hk. split; [apply Update_keyed, Hk | apply listenForUpdates_keyed, Hk].
Qed.

(** X18. One frame of [Game.Update] keeps the identity and the health of
    the local player, adds and removes no remote player, leaves the
    obstacles and objects alone, and writes to the connection first the
    PlayerHits of the frame and then at most one player_update, which
    carries the local player as the frame leaves it; that update is
    omitted exactly when [json.Marshal] refuses it. *)
Theorem Update_writes_hits_then_one_update (inp : Input) (order : list string) (g : Game.t) :
  let g' := Game.Update inp order g in
  let update := EventPlayerUpdate (snapshot (Game.player g')) in
  Player.ID (Game.player g') = Player.ID (Game.player g)
  /\ Player.Health (Game.player g') = Player.Health (Game.player g)
  /\ dom (Game.players g') = dom (Game.players g)
  /\ Game.obstacles g' = Game.obstacles g
  /\ Game.Objects g' = Game.Objects g
  /\ exists hits,
       Forall Inv.isHit20 hits
       /\ Game.conn g' = Game.conn g ++ hits ++ (if Game.marshal update then [update] else []).
Proof.
  cbv zeta. destruct (Update_passes inp order g) as (g1 & Hp & ->).
  destruct (sendEvent_rest (EventPlayerUpdate (snapshot (Game.player g1))) g1)
    as (-> & -> & -> & ->).
  destruct Hp as [Hdom _ Hpl _ Hobs Hobj (sent & Hconn & Hsent & _)].
  cbn [Game.player Game.players Game.obstacles Game.Objects Game.conn Game.setPlayer] in *.
  destruct (Player_Update_ID_Health inp
              (Game.collidesWithObstacles (Player.X (Game.player g))
                 (Player.Y (Game.player g)) 10 (Game.obstacles g)) (Game.player g))
    as [Hid Hh].
  rewrite <- Hid, <- Hh, <- Hpl.
  repeat (split; [first [reflexivity | assumption] |]).
  exists sent. split.
  - eapply Forall_impl; [exact Hsent |].
    intros e (k & p & _ & ->). eexists. reflexivity.
  - unfold Game.sendEvent. destruct (Game.marshal _); cbn [Game.conn Game.setConn].
    + rewrite Hconn, <- app_assoc. reflexivity.
    + rewrite Hconn, app_nil_r. reflexivity.
Qed.

End KeyedFacts.

Lemma newGame_keyed (playerID : string) : Inv.keyed (@Game.newGame Extern0 playerID).
Proof.
  intros k p Hl. cbn [Game.newGame Game.players] in Hl.
  apply elem_of_list_to_map_2 in Hl.
  repeat (apply elem_of_cons in Hl as [[= -> ->] | Hl]; [reflexivity |]).
  inversion Hl.
Qed.

Lemma players_stay_keyed_witness :
  Inv.keyed (@Game.newGame Extern0 "p1")
  /\ Inv.keyed (@Game.Update Extern0 Sample.allKeys ["222"%string; "111"%string]
                  (@Game.newGame Extern0 "p1"))
  /\ Inv.keyed (@Game.listenForUpdates Extern0
                  [FramePlayerUpdate (PlayerUpdate.mk "p2" 1 2 0 70 []);
                   FramePlayerHit (PlayerHit.mk "p2" 20)]
                  (@Game.newGame Extern0 "p1")).
Proof.
  split; [exact (newGame_keyed "p1") |].
  exact (@players_stay_keyed Extern0 Sample.allKeys ["222"%string; "111"%string]
           [FramePlayerUpdate (PlayerUpdate.mk "p2" 1 2 0 70 []);
            FramePlayerHit (PlayerHit.mk "p2" 20)]
           (@Game.newGame Extern0 "p1") (newGame_keyed "p1")).
Defined.

(** ** The step of the local player *)

Section StepFacts.
Context `{Extern}.
Local Open Scope Z_scope.




End StepFacts.


(** ** The relay *)

Section RelayFacts.

Lemma step_steady_clients (s : Relay.t) (e : Relay.Step) (d : nat) :
  e <> Relay.Accept d -> e <> Relay.ReadError d ->
  d ∈ Relay.clients (Relay.step s e) <-> d ∈ Relay.clients s.
Proof.
  intros Ha Hr. destruct e as [c | c msg | c]; cbn [Relay.step Relay.clients Relay.broadcast].
  - assert (c <> d) by congruence.
    rewrite elem_of_union, elem_of_singleton. intuition congruence.
  - reflexivity.
  - assert (c <> d) by congruence.
    rewrite elem_of_difference, elem_of_singleton. intuition congruence.
Qed.

Lemma step_steady_written (s : Relay.t) (e : Relay.Step) (d : nat) :
  Relay.written (Relay.step s e) d =
    Relay.written s d ++ (if decide (d ∈ Relay.clients s) then Relay.fromOthers d [e] else []).
Proof.
  destruct e as [c | c msg | c]; cbn [Relay.step Relay.written Relay.broadcast Relay.fromOthers omap list_omap].
  - destruct (decide _); rewrite app_nil_r; reflexivity.
  - destruct (decide (d ∈ Relay.clients s)); [| rewrite app_nil_r; reflexivity].
    destruct (decide (d = c)) as [-> | Hne].
    + rewrite decide_True by reflexivity. rewrite app_nil_r. reflexivity.
    + rewrite decide_False by congruence. reflexivity.
  - destruct (decide _); rewrite app_nil_r; reflexivity.
Qed.

Lemma fromOthers_cons (d : nat) (e : Relay.Step) (steps : list Relay.Step) :
  Relay.fromOthers d (e :: steps) = Relay.fromOthers d [e] ++ Relay.fromOthers d steps.
Proof.
  unfold Relay.fromOthers. cbn [omap list_omap].
  destruct e as [c | c msg | c]; try reflexivity.
  destruct (decide (c = d)); reflexivity.
Qed.

(** X19. While the relay neither accepts nor loses a connection [d], what
    it writes to [d] is, when [d] is connected, exactly the lines read
    from the other connections, in the order they were read: none is
    dropped, doubled or reordered, and no line of [d] is echoed back to
    it; when [d] is not connected, nothing is written to it. *)
Theorem relay_delivers_in_order (s : Relay.t) (steps : list Relay.Step) (d : nat) :
  Relay.steady d steps ->
  Relay.written (Relay.run s steps) d =
    Relay.written s d ++ (if decide (d ∈ Relay.clients s) then Relay.fromOthers d steps else []).
Proof.
  unfold Relay.run, Relay.steady. revert s.
  induction steps as [|e steps IH]; intros s Hs; cbn [foldl].
  - destruct (decide _); rewrite app_nil_r; reflexivity.
  - apply Forall_cons in Hs as [[Ha Hr] Hs].
    rewrite (IH _ Hs), step_steady_written, (fromOthers_cons d e steps).
    pose proof (step_steady_clients s e d Ha Hr) as Hc.
    destruct (decide (d ∈ Relay.clients s)) as [Hin | Hout].
    + rewrite decide_True by (apply Hc, Hin). rewrite app_assoc. reflexivity.
    + rewrite decide_False by (rewrite Hc; exact Hout). rewrite !app_nil_r. reflexivity.
Qed.

End RelayFacts.

Lemma relay_delivers_in_order_witness :
  Relay.steady 2
    [Relay.ReadLine 1 "a"; Relay.ReadLine 2 "b"; Relay.Accept 3; Relay.ReadLine 3 "c";
     Relay.ReadError 1]
  /\ Relay.written
       (Relay.run (Relay.run Relay.start [Relay.Accept 1; Relay.Accept 2])
          [Relay.ReadLine 1 "a"; Relay.ReadLine 2 "b"; Relay.Accept 3; Relay.ReadLine 3 "c";
           Relay.ReadError 1]) 2
     = ["a"%string; "c"%string].
Proof.
  assert (Hs : Relay.steady 2
                 [Relay.ReadLine 1 "a"; Relay.ReadLine 2 "b"; Relay.Accept 3;
                  Relay.ReadLine 3 "c"; Relay.ReadError 1])
    by (repeat constructor; discriminate).
  split; [exact Hs |].
  exact (relay_delivers_in_order (Relay.run Relay.start [Relay.Accept 1; Relay.Accept 2])
           _ 2 Hs).
Defined.

(** ** The triangle fan *)

Section RenderFacts.

(** X20. The loop of [Draw] over the rays never indexes out of range,
    also on no ray at all; it builds one triangle for each ray, between
    that ray and the next one of the slice, and the last ray is paired with
    the first, which closes the fan. *)
Theorem fan_closes_the_ring (px py : float64) (rays : list game.Line) :
  exists triangles,
    Render.fan px py rays = Some triangles
    /\ length triangles = length rays
    /\ forall i ray, rays !! i = Some ray ->
         exists nextLine,
           rays !! ((i + 1) mod length rays)%nat = Some nextLine
           /\ triangles !! i = Some (Render.triangle px py ray nextLine).
Proof.
  set (next := fun (i : nat) (ray : game.Line) =>
                 default ray (rays !! ((i + 1) mod length rays)%nat)).
  exists (imap (fun i ray => Render.triangle px py ray (next i ray)) rays).
  assert (Hnext : forall i ray, rays !! i = Some ray ->
            rays !! ((i + 1) mod length rays)%nat = Some (next i ray)).
  { intros i ray Hi. unfold next.
    assert (Hlt : ((i + 1) mod length rays < length rays)%nat).
    { apply Nat.mod_upper_bound. apply lookup_lt_Some in Hi. lia. }
    apply lookup_lt_is_Some_2 in Hlt as [q Hq]. rewrite Hq. reflexivity. }
  split; [| split].
  - unfold Render.fan. apply mapM_Some. apply Forall2_lookup. intros i.
    rewrite !list_lookup_imap.
    destruct (rays !! i) as [ray|] eqn:Hi; cbn; constructor.
    unfold Render.turn.
    destruct (Nat.eqb_spec (length rays) 0) as [E | _].
    { apply lookup_lt_Some in Hi. lia. }
    rewrite (Hnext i ray Hi). reflexivity.
  - apply length_imap.
  - intros i ray Hi. exists (next i ray). split; [exact (Hnext i ray Hi) |].
    rewrite list_lookup_imap, Hi. reflexivity.
Qed.

End RenderFacts.

(** ** Closed boundaries *)

Section ChainFacts.
Import game.
Local Open Scope float_scope.

Lemma neb_refl (x : float64) : is_nan x = false -> (x !=? x) = false.
Proof. unfold F64.neb, is_nan. intros ->. reflexivity. Qed.

Lemma closedChain_last (w : Line) (ws : list Line) :
  Inv.closedChain (w :: ws) ->
  List.last (Param.secondEndpoint <$> (w :: ws)) (0, 0) = (X1 w, Y1 w).
Proof.
  intros Hc.
  assert (Hlast : exists a, (w :: ws) !! (length ws) = Some a
                    /\ List.last (Param.secondEndpoint <$> (w :: ws)) (0, 0)
                       = Param.secondEndpoint a).
  { clear Hc. revert w. induction ws as [|v ws IH]; intros w.
    - exists w. split; reflexivity.
    - destruct (IH v) as (a & Ha & Hl). exists a. split; [exact Ha |].
      rewrite <- Hl. reflexivity. }
  destruct Hlast as (a & Ha & ->).
  apply (Hc (length ws) a w Ha).
  cbn [length]. replace (length ws + 1)%nat with (S (length ws)) by lia.
  rewrite Nat.Div0.mod_same. reflexivity.
Qed.

Lemma Rect_closedChain (x y w h : float64) : Inv.closedChain (Rect x y w h).
Proof.
  intros i a b Ha Hb. unfold Rect in *. cbn [length] in Hb.
  destruct i as [|[|[|[|i]]]]; cbn in Ha, Hb; try discriminate Ha;
    injection Ha as <-; injection Hb as <-; reflexivity.
Qed.

(** X21. On a closed boundary, whose every segment ends where the next
    begins and the last where the first begins, [Points] returns the
    vertices once each: the second endpoints of the segments in order,
    with no start point appended, as soon as one coordinate of the start
    is a number. *)
Theorem Points_closed_chain (w : Line) (ws : list Line) :
  Inv.closedChain (w :: ws) ->
  is_nan (X1 w) = false \/ is_nan (Y1 w) = false ->
  Points (mkObject (w :: ws)) = Some (Param.secondEndpoint <$> (w :: ws)).
Proof.
  intros Hc Hn. rewrite Points_nonempty. rewrite (closedChain_last w ws Hc).
  cbn [fst snd].
  destruct Hn as [Hn | Hn]; rewrite (neb_refl _ Hn), ?andb_false_r;
    cbn [andb]; rewrite app_nil_r; reflexivity.
Qed.

End ChainFacts.

Lemma Points_closed_chain_witness :
  Inv.closedChain (game.Rect 20 20 1560 860)
  /\ (is_nan 20 = false \/ is_nan 20 = false)
  /\ game.Points (game.mkObject (game.Rect 20 20 1560 860))
     = Some [(20, 880); (1580, 880); (1580, 20); (20, 20)]%float.
Proof.
  assert (Hc : Inv.closedChain (game.Rect 20 20 1560 860)) by apply Rect_closedChain.
  assert (Hn : is_nan 20 = false \/ is_nan 20 = false) by (left; reflexivity).
  split; [exact Hc |]. split; [exact Hn |].
  exact (Points_closed_chain (game.mkLine 20 20 20 (20 + 860))
           [game.mkLine 20 (20 + 860) (20 + 1560) (20 + 860);
            game.mkLine (20 + 1560) (20 + 860) (20 + 1560) 20;
            game.mkLine (20 + 1560) 20 20 20]%float Hc Hn).
Defined.

(** ** The ageing bullets *)

Section AgeingFacts.
Import part_001.
Local Open Scope Z_scope.

Lemma OutOfBounds_Update (b : Bullet.t) (w h : float64) :
  Bullet.OutOfBounds (Bullet.Update b) w h = Bullet.OutOfBounds b w h.
Proof. reflexivity. Qed.

Lemma insert_middle {A : Type} (l1 l2 : list A) (x y : A) :
  <[length l1 := y]> (l1 ++ x :: l2) = l1 ++ y :: l2.
Proof.
  rewrite <- (Nat.add_0_r (length l1)) at 1. rewrite insert_app_r. reflexivity.
Qed.

Lemma updateBullets_sweep (pre suf : list Bullet.t) :
  Forall (fun b => Bullet.OutOfBounds b 1600 900 = false) pre ->
  Player.updateBullets (length pre) (pre ++ suf) =
    Some (filter (fun b => Bullet.Frames b <= 15) (Bullet.Update <$> pre) ++ suf).
Proof.
  revert suf. induction pre as [|b pre IH] using rev_ind; intros suf Hin; [reflexivity |].
  apply Forall_app in Hin as [Hpre Hb]. rewrite Forall_singleton in Hb.
  rewrite length_app, Nat.add_1_r, <- app_assoc. cbn [app Player.updateBullets].
  rewrite list_lookup_middle by reflexivity. cbn [mbind option_bind].
  rewrite insert_middle.
  rewrite list_lookup_middle by reflexivity. cbn [mbind option_bind].
  rewrite OutOfBounds_Update, Hb.
  rewrite list_lookup_middle by reflexivity. cbn [mbind option_bind].
  rewrite fmap_app, filter_app. cbn [fmap list_fmap].
  destruct (Z.gtb_spec (Bullet.Frames (Bullet.Update b)) 15) as [Hold | Hyoung].
  - rewrite delete_middle, (IH suf Hpre).
    rewrite filter_cons_False by lia. rewrite filter_nil, app_nil_r. reflexivity.
  - rewrite (IH _ Hpre).
    rewrite filter_cons_True by lia. rewrite filter_nil, <- app_assoc. reflexivity.
Qed.

Lemma updateBullets_last_out (pre : list Bullet.t) (b : Bullet.t) :
  Bullet.OutOfBounds b 1600 900 = true ->
  Player.updateBullets (S (length pre)) (pre ++ [b]) = None.
Proof.
  intros Hb. cbn [Player.updateBullets].
  rewrite list_lookup_middle by reflexivity. cbn [mbind option_bind].
  rewrite insert_middle.
  rewrite list_lookup_middle by reflexivity. cbn [mbind option_bind].
  rewrite OutOfBounds_Update, Hb, delete_middle, app_nil_r.
  rewrite lookup_ge_None_2 by lia. reflexivity.
Qed.

(** X22. In the variant with ageing bullets, when every bullet lies in
    the field the loop of [Update] does not fault: it adds one frame to
    each bullet and keeps, in order, exactly those whose count is then at
    most 15. *)
Theorem updateBullets_ages_and_expires (bullets : list Bullet.t) :
  Forall (fun b => Bullet.OutOfBounds b 1600 900 = false) bullets ->
  Player.updateBullets (length bullets) bullets =
    Some (filter (fun b => Bullet.Frames b <= 15) (Bullet.Update <$> bullets)).
Proof.
  intros Hin. pose proof (updateBullets_sweep bullets [] Hin) as Hs.
  rewrite !app_nil_r in Hs. exact Hs.
Qed.

Context `{Extern}.

(** X23. In the variant with ageing bullets, a living player that fires
    while its position after the step is outside the field makes [Update]
    fault: the new bullet is the last of the slice, it is cut out as out
    of bounds, and the test of its frames then indexes one past the end. *)
Theorem Update_faults_on_shot_outside_field (inp : Input) (p : Player.t) :
  0 < Player.Health p ->
  Player.fires inp p = true ->
  Bullet.OutOfBounds
    (Bullet.mk (Player.ID p) (Player.X p + (Player.move inp).1)%float
       (Player.Y p + (Player.move inp).2)%float 0 0) 1600 900 = true ->
  Player.Update inp p = None.
Proof.
  intros Hh Hf Hout. unfold Player.Update.
  destruct (Z.leb_spec (Player.Health p) 0); [lia |].
  destruct (Player.move inp) as [moveX moveY]. destruct (CursorPosition inp) as [mx my].
  cbv zeta. cbn [fst snd] in Hout.
  change (Player.fires inp (Player.setPose _ _ _ p)) with (Player.fires inp p).
  rewrite Hf. cbn [Player.Bullets Player.setLastShot Player.Shoot Player.setBullets
                   Player.setPose Player.ID Player.X Player.Y Player.Angle].
  rewrite length_app, Nat.add_1_r.
  rewrite updateBullets_last_out; [reflexivity | exact Hout].
Qed.

End AgeingFacts.

Lemma updateBullets_ages_and_expires_witness :
  Forall (fun b => part_001.Bullet.OutOfBounds b 1600 900 = false) [SampleAgeing.fresh; SampleAgeing.aged]
  /\ part_001.Player.updateBullets 2 [SampleAgeing.fresh; SampleAgeing.aged]
     = Some [part_001.Bullet.mk "p1" 800 450 0 11].
Proof.
  assert (Hin : Forall (fun b => part_001.Bullet.OutOfBounds b 1600 900 = false)
                  [SampleAgeing.fresh; SampleAgeing.aged]) by (repeat constructor).
  split; [exact Hin |].
  exact (updateBullets_ages_and_expires [SampleAgeing.fresh; SampleAgeing.aged] Hin).
Defined.

Lemma Update_faults_on_shot_outside_field_witness :
  (0 < part_001.Player.Health SampleAgeing.edgeWalker)%Z
  /\ part_001.Player.fires SampleAgeing.leftAndFire SampleAgeing.edgeWalker = true
  /\ @part_001.Player.Update Extern0 SampleAgeing.leftAndFire SampleAgeing.edgeWalker = None.
Proof.
  assert (Hh : (0 < part_001.Player.Health SampleAgeing.edgeWalker)%Z) by (vm_compute; reflexivity).
  assert (Hf : part_001.Player.fires SampleAgeing.leftAndFire SampleAgeing.edgeWalker = true)
    by reflexivity.
  split; [exact Hh |]. split; [exact Hf |].
  exact (@Update_faults_on_shot_outside_field Extern0 SampleAgeing.leftAndFire SampleAgeing.edgeWalker
           Hh Hf eq_refl).
Defined.

(** ** The circle test on a segment of length zero *)

Section SegmentCircleFacts.
Local Open Scope float_scope.

Lemma vanishing_sub_diag (x : float64) : vanishing (x - x).
Proof.
  unfold vanishing. rewrite FloatAxioms.sub_spec.
  destruct (Prim2SF x) as [s|s| |s m e]; cbn; try exact I.
  - destruct s; exact I.
  - destruct s; exact I.
  - set (v := cond_Zopp s _).
    replace (IntDef.Z.sub v v) with 0%Z by (change (IntDef.Z.sub v v) with (v - v)%Z; lia).
    exact I.
Qed.

Lemma vanishing_mul_l (x y : float64) : vanishing x -> vanishing (x * y).
Proof.
  unfold vanishing. rewrite FloatAxioms.mul_spec.
  destruct (Prim2SF x), (Prim2SF y); cbn; intros Hx; try exact I; try contradiction.
Qed.

Lemma vanishing_mul_r (x y : float64) : vanishing y -> vanishing (x * y).
Proof.
  unfold vanishing. rewrite FloatAxioms.mul_spec.
  destruct (Prim2SF x), (Prim2SF y); cbn; intros Hy; try exact I; try contradiction.
Qed.

Lemma vanishing_add (x y : float64) : vanishing x -> vanishing y -> vanishing (x + y).
Proof.
  unfold vanishing. rewrite FloatAxioms.add_spec.
  destruct (Prim2SF x) as [[]| | |], (Prim2SF y) as [[]| | |]; cbn; intros Hx Hy;
    try exact I; try contradiction.
Qed.

Lemma vanishing_sub (x y : float64) : vanishing x -> vanishing y -> vanishing (x - y).
Proof.
  unfold vanishing. rewrite FloatAxioms.sub_spec.
  destruct (Prim2SF x) as [[]| | |], (Prim2SF y) as [[]| | |]; cbn; intros Hx Hy;
    try exact I; try contradiction.
Qed.

Lemma vanishing_opp (x : float64) : vanishing x -> vanishing (- x).
Proof.
  unfold vanishing. rewrite FloatAxioms.opp_spec.
  destruct (Prim2SF x); cbn; intros Hx; try exact I; try contradiction.
Qed.

Lemma vanishing_sqrt (x : float64) : vanishing x -> vanishing (sqrt x).
Proof.
  unfold vanishing. rewrite FloatAxioms.sqrt_spec.
  destruct (Prim2SF x); cbn; intros Hx; try exact I; try contradiction.
Qed.

Lemma vanishing_not_negative (x : float64) : vanishing x -> (x <? 0) = false.
Proof.
  unfold vanishing. rewrite FloatAxioms.ltb_spec. change (Prim2SF 0) with (S754_zero false).
  destruct (Prim2SF x); cbn; intros Hx; try reflexivity; try contradiction.
Qed.

Lemma vanishing_quotient (x y : float64) :
  vanishing x -> vanishing y -> (0 <=? x / y) = false.
Proof.
  unfold vanishing. rewrite FloatAxioms.leb_spec, FloatAxioms.div_spec.
  change (Prim2SF 0) with (S754_zero false).
  destruct (Prim2SF x), (Prim2SF y); cbn; intros Hx Hy; try reflexivity; try contradiction.
Qed.

(** X24. [LineIntersectsCircle] answers false on every segment of length
    zero, whatever the circle: also when the point lies inside the
    circle, since both roots come out as 0/0. *)
Theorem LineIntersectsCircle_zero_length (x1 y1 cx cy radius : float64) :
  LineIntersectsCircle x1 y1 x1 y1 cx cy radius = false.
Proof.
  unfold LineIntersectsCircle. cbv zeta.
  pose proof (vanishing_sub_diag x1) as Hdx. pose proof (vanishing_sub_diag y1) as Hdy.
  set (dx := x1 - x1) in *. set (dy := y1 - y1) in *.
  assert (Ha : vanishing (dx * dx + dy * dy))
    by (apply vanishing_add; apply vanishing_mul_l; assumption).
  assert (Hb : vanishing (2 * ((x1 - cx) * dx + (y1 - cy) * dy)))
    by (apply vanishing_mul_r, vanishing_add; apply vanishing_mul_r; assumption).
  set (a := dx * dx + dy * dy) in *.
  set (b := 2 * ((x1 - cx) * dx + (y1 - cy) * dy)) in *.
  set (c := (x1 - cx) * (x1 - cx) + (y1 - cy) * (y1 - cy) - radius * radius).
  assert (Hd : vanishing (b * b - 4 * a * c)).
  { apply vanishing_sub; [apply vanishing_mul_l, Hb |].
    apply vanishing_mul_l, vanishing_mul_r, Ha. }
  rewrite (vanishing_not_negative _ Hd).
  assert (H2a : vanishing (2 * a)) by apply vanishing_mul_r, Ha.
  rewrite (vanishing_quotient (- b - sqrt (b * b - 4 * a * c)) (2 * a));
    [| apply vanishing_sub; [apply vanishing_opp, Hb | apply vanishing_sqrt, Hd] | exact H2a].
  rewrite (vanishing_quotient (- b + sqrt (b * b - 4 * a * c)) (2 * a));
    [| apply vanishing_add; [apply vanishing_opp, Hb | apply vanishing_sqrt, Hd] | exact H2a].
  reflexivity.
Qed.

End SegmentCircleFacts.
